(** * MapSCII core: tile cache, tile decode/styling, label placement and
    the braille raster buffer, embedded in Rocq.

    Sources embedded here:
    - [src/src/TileSource.ts]  (TileSource.init, getTile, _getHTTP, _createTile,
                                _persistTile, _getPersited)
    - [src/src/Tile.ts]        (Tile.load, _unzipIfNeeded, _isGzipped,
                                _loadLayers, _addBoundaries)
    - [src/src/LabelBuffer.ts] (writeIfPossible, _hasSpace, _calculateArea)
    - [src/unnamed/part_001]   (BrailleBuffer: constructor, clear, _project,
                                _locate, setPixel, unsetPixel, setChar,
                                setBackground, writeText, _termColor, frame,
                                _mapBraille)
    - [src/unnamed/part_000]   (Mapscii: _resizeRenderer, zoomBy)

    JavaScript numbers that the code uses as integers are modelled as [Z];
    JS object property keys are [string]s; a JS object used as a dictionary
    is a [gmap string _]. *)

From Stdlib Require Import ZArith Lia QArith Qround Lqa Ascii.
From Stdlib Require Import Init.Byte Strings.Byte.
From stdpp Require Import base list gmap strings pretty.

Open Scope Z_scope.

(* ================================================================== *)
(** ** TileSource (src/src/TileSource.ts) *)
(* ================================================================== *)

Module TileSource.

Inductive Mode := MBTiles | VectorTile | HTTP.

(** A tile as stored in the cache.  Only its identity matters for the
    cache: we record the coordinates [new Tile(...)] was created for. *)
Record Tile := mkTile { tile_z : Z; tile_x : Z; tile_y : Z }.

(** The TileSource object's fields used by [getTile]. *)
Record TileSource := mkTileSource {
  source : string;
  cache : gmap string Tile;       (* this.cache : Record<string, unknown> *)
  cacheSize : nat;                (* this.cacheSize *)
  cached : list string;           (* this.cached : insertion-order list *)
  mode : option Mode              (* this.mode : Mode | null *)
}.

(** [[z, x, y].join('-')] *)
Definition key_of (z x y : Z) : string :=
  pretty z +:+ "-" +:+ pretty x +:+ "-" +:+ pretty y.

(** [s.endsWith(suf)] *)
Definition ends_with (suf s : string) : bool :=
  let n := String.length s in
  let m := String.length suf in
  (m <=? n)%nat && String.eqb (String.substring (n - m) m s) suf.

(** [init(source)]: [None] is a thrown error ('source type isn't
    supported yet').  Persistence set-up does not touch the cache. *)
Definition init (src : string) : option TileSource :=
  if String.prefix "http" src then
    Some (mkTileSource src ∅ 16 [] (Some HTTP))
  else if ends_with ".mbtiles" src then
    Some (mkTileSource src ∅ 16 [] (Some MBTiles))
  else None.

(** The eviction block of [getTile]:
<<
    if (this.cached.length > this.cacheSize) {
      const overflow = Math.abs(this.cacheSize - this.cached.length);
      for (const tile in this.cached.splice(0, overflow)) {
        delete this.cache[tile];
      }
    }
>>
    [for ... in] over the spliced array enumerates its index property
    names ["0"], ["1"], ..., so those are the keys deleted. *)
Definition evict (ts : TileSource) : TileSource :=
  if (cacheSize ts <? length (cached ts))%nat then
    let overflow :=
      Z.to_nat (Z.abs (Z.of_nat (cacheSize ts) - Z.of_nat (length (cached ts)))) in
    let spliced := take overflow (cached ts) in
    let cache' := foldl (fun c (i : nat) => delete (pretty i) c)
                        (cache ts) (seq 0 (length spliced)) in
    mkTileSource (source ts) cache' (cacheSize ts)
                 (drop overflow (cached ts)) (mode ts)
  else ts.

(** [_createTile(z, x, y, buffer)]: push the name, store the new tile. *)
Definition createTile (ts : TileSource) (z x y : Z) : TileSource * Tile :=
  let name := key_of z x y in
  let t := mkTile z x y in
  (mkTileSource (source ts) (<[name := t]> (cache ts)) (cacheSize ts)
                (cached ts ++ [name]) (mode ts), t).

(** What a [getTile] call resolves to: the cached tile ([Hit]), a tile
    created by the backend path ([Loaded]), or [undefined] when the
    [switch] has no case for the mode. *)
Inductive Outcome := Hit (t : Tile) | Loaded (t : Tile) | NoCase.

(** [getTile(z, x, y)], with the backend load completing before the
    next call.  [None] is the thrown 'no TileSource defined'. *)
Definition getTile (ts : TileSource) (z x y : Z) : option (TileSource * Outcome) :=
  match mode ts with
  | None => None
  | Some m =>
    match cache ts !! key_of z x y with
    | Some t => Some (ts, Hit t)
    | None =>
      let ts1 := evict ts in
      match m with
      | MBTiles | HTTP => let '(ts2, t) := createTile ts1 z x y in Some (ts2, Loaded t)
      | VectorTile => Some (ts1, NoCase)
      end
    end
  end.

(** A sequence of [getTile] calls, each completing before the next. *)
Fixpoint run (ts : TileSource) (calls : list (Z * Z * Z)) : option (TileSource * list Outcome) :=
  match calls with
  | [] => Some (ts, [])
  | (z, x, y) :: rest =>
    match getTile ts z x y with
    | None => None
    | Some (ts1, o) =>
      match run ts1 rest with
      | None => None
      | Some (ts2, os) => Some (ts2, o :: os)
      end
    end
  end.

(** The keys of the calls that missed the cache, in order. *)
Fixpoint missed (os : list Outcome) : list string :=
  match os with
  | [] => []
  | Loaded t :: rest => key_of (tile_z t) (tile_x t) (tile_y t) :: missed rest
  | _ :: rest => missed rest
  end.

(** FIFO bookkeeping of one miss on the insertion-order list: drop the
    oldest entries beyond the bound [B], then append the new key. *)
Definition fifo_push (B : nat) (l : list string) (k : string) : list string :=
  (if (B <? length l)%nat then drop (length l - B) l else l) ++ [k].

(** Eighteen distinct tiles followed by the first one again. *)
Definition cx_calls : list (Z * Z * Z) :=
  map (fun i => (0, 0, Z.of_nat i)) (seq 0 18) ++ [(0, 0, 0)].

Definition cx_ts0 : TileSource := mkTileSource "http://tiles/" ∅ 16 [] (Some HTTP).

Definition cx_run : option (TileSource * list Outcome) :=
  match init "http://tiles/" with
  | Some ts0 => run ts0 cx_calls
  | None => None
  end.

End TileSource.

(* ================================================================== *)
(** ** Tile (src/src/Tile.ts) *)
(* ================================================================== *)

Module Tile.

(** Why [Tile.load] rejects. *)
Inductive LoadError :=
  | DecompressionError      (* zlib.gunzip callback error *)
  | CorruptTile             (* VectorTile/Protobuf parse failure *)
  | TypeError (what : string).

(** A small error monad: a rejected promise is [Err]. *)
Inductive result (A : Type) := Ok (a : A) | Err (e : LoadError).
Arguments Ok {A} a.
Arguments Err {A} e.

Definition bind {A B} (m : result A) (f : A -> result B) : result B :=
  match m with Ok a => f a | Err e => Err e end.
Notation "'let*' x := m 'in' k" := (bind m (fun x => k))
  (at level 200, x name, m at level 100, k at level 200).

Fixpoint mapM {A B} (f : A -> result B) (l : list A) : result (list B) :=
  match l with
  | [] => Ok []
  | a :: l' => let* b := f a in let* bs := mapM f l' in Ok (b :: bs)
  end.

(** Node's [Buffer.indexOf(value)] for a [Buffer] value: index of the first
    occurrence of [needle] in [hay], or -1. *)
Fixpoint prefixb (needle hay : list byte) : bool :=
  match needle, hay with
  | [], _ => true
  | _, [] => false
  | a :: n, b :: h => Byte.eqb a b && prefixb n h
  end.

Fixpoint indexOf_go (hay needle : list byte) (i : Z) : Z :=
  if prefixb needle hay then i
  else match hay with [] => -1 | _ :: t => indexOf_go t needle (i + 1) end.

Definition indexOf (hay needle : list byte) : Z := indexOf_go hay needle 0.

(** [_isGzipped(buffer)]:
    [buffer.slice(0, 2).indexOf(Buffer.from([0x1f, 0x8b])) === 0] *)
Definition isGzipped (buffer : list byte) : bool :=
  Z.eqb (indexOf (take 2 buffer) [x1f; x8b]) 0.

(** [_unzipIfNeeded(buffer)]; [gunzip] is zlib's decompressor. *)
Definition unzipIfNeeded (gunzip : list byte -> result (list byte))
    (buffer : list byte) : result (list byte) :=
  if isGzipped buffer then gunzip buffer else Ok buffer.

(** Feature property values (JS scalars). *)
Inductive PropVal := PUndef | PStr (s : string) | PNum (n : Z) | PBool (b : bool).

Definition point := (Z * Z)%type.

(** A decoded feature: [feature.type], [feature.properties] and the
    result of [feature.loadGeometry()]. *)
Record Feature := mkFeature {
  ftype : Z;
  properties : gmap string PropVal;
  geometry : list (list point)
}.

(** A decoded layer: [layer.extent] and its features [layer.feature(i)]. *)
Record Layer := mkLayer { extent : Z; features : list Feature }.

(** [this.tile.layers], in [for ... in] order. *)
Definition VectorTile := list (string * Layer).

(** Paint values: a colour string or a [{stops: [[zoom, colour], ...]}]
    object. *)
Inductive PaintVal := PaintStr (s : string) | PaintStops (stops : list (Z * string)).

Record Style := mkStyle { stype : string; paint : gmap string PaintVal }.

(** [styler.getStyleFor(layerName, feature)]; [None] is a falsy result. *)
Definition Styler := string -> Feature -> option Style.

(** JS truthiness and [a || b]. *)
Definition prop_truthy (v : option PropVal) : bool :=
  match v with
  | None | Some PUndef => false
  | Some (PStr s) => negb (String.eqb s "")
  | Some (PNum n) => negb (Z.eqb n 0)
  | Some (PBool b) => b
  end.

Definition prop_or (a b : option PropVal) : option PropVal :=
  if prop_truthy a then a else b.

Definition paint_truthy (v : option PaintVal) : bool :=
  match v with
  | None => false
  | Some (PaintStr s) => negb (String.eqb s "")
  | Some (PaintStops _) => true
  end.

Definition paint_or (a b : option PaintVal) : option PaintVal :=
  if paint_truthy a then a else b.

(** [feature.properties.$type = [undefined, 'Point', 'LineString',
    'Polygon'][feature.type]] *)
Definition type_name (t : Z) : PropVal :=
  match t with
  | 1 => PStr "Point" | 2 => PStr "LineString" | 3 => PStr "Polygon"
  | _ => PUndef
  end.

Definition set_type (f : Feature) : Feature :=
  mkFeature (ftype f) (<["$type" := type_name (ftype f)]> (properties f)) (geometry f).

(** The colour expression of [_loadLayers]:
<<
    let color = (style.paint['line-color'] || style.paint['fill-color'] ||
                 style.paint['text-color']);
    if (color instanceof Object) { color = color.stops[0][1]; }
>>
    [None] in the result is [undefined]. *)
Definition resolve_color (p : gmap string PaintVal) : result (option string) :=
  match paint_or (paint_or (p !! "line-color") (p !! "fill-color")) (p !! "text-color") with
  | None => Ok None
  | Some (PaintStr s) => Ok (Some s)
  | Some (PaintStops ((_, c) :: _)) => Ok (Some c)
  | Some (PaintStops []) => Err (TypeError "Cannot read properties of undefined (reading '1')")
  end.

(** [feature.properties.localrank || feature.properties.scalerank] *)
Definition sort_of (props : gmap string PropVal) : option PropVal :=
  prop_or (props !! "localrank") (props !! "scalerank").

(** What a StyledNode keeps in [points]: the feature's rings ([fill]) or
    one ring. *)
Inductive NodePoints := Rings (rs : list (list point)) | Ring (r : list point).

Record Node := mkNode {
  node_layer : string;
  node_style : Style;
  node_label : option PropVal;
  node_sort : option PropVal;
  node_points : NodePoints;
  node_color : Z;
  minX : Z; maxX : Z; minY : Z; maxY : Z
}.

(** 2e307, "a high number that's not Infinity". *)
Definition big : Z := 2 * 10 ^ 307.

(** The loop of [_addBoundaries] over one ring. *)
Definition bounds_step (b : Z * Z * Z * Z) (p : point) : Z * Z * Z * Z :=
  let '(mnx, mxx, mny, mxy) := b in
  let '(px, py) := p in
  let mnx := if px <? mnx then px else mnx in
  let mxx := if mxx <? px then px else mxx in
  let mny := if py <? mny then py else mny in
  let mxy := if mxy <? py then py else mxy in
  (mnx, mxx, mny, mxy).

Definition ring_bounds (r : list point) : Z * Z * Z * Z :=
  foldl bounds_step (big, - big, big, - big) r.

(** [_addBoundaries(deep, data)]: [deep] takes [data.points[0]]; iterating
    [undefined] (a fill without rings) throws. *)
Definition addBoundaries (lyr : string) (st : Style) (label sort : option PropVal)
    (pts : NodePoints) (color : Z) : result Node :=
  let ring := match pts with
              | Rings (r :: _) => Ok r
              | Rings [] => Err (TypeError "points is not iterable")
              | Ring r => Ok r
              end in
  let* r := ring in
  let '(mnx, mxx, mny, mxy) := ring_bounds r in
  Ok (mkNode lyr st label sort pts color mnx mxx mny mxy).

Section LoadLayers.

(** [config.language] *)
Variable language : string.
(** [x256(utils.hex2rgb(color))], memoised per tile in [colorCache]. *)
Variable quantize : option string -> Z.

(** [style.type === 'symbol' ? props['name_' + config.language] ||
    props.name_en || props.name || props.house_num : void 0] *)
Definition label_of (st : Style) (props : gmap string PropVal) : option PropVal :=
  if String.eqb (stype st) "symbol" then
    prop_or (prop_or (prop_or (props !! ("name_" +:+ language)) (props !! "name_en"))
                     (props !! "name")) (props !! "house_num")
  else None.

(** The body of the feature loop once [style] is known. *)
Definition build_nodes (lyr : string) (st : Style) (f : Feature) : result (list Node) :=
  let* color := resolve_color (paint st) in
  let colorCode := quantize color in
  let geometries := geometry f in
  let sort := sort_of (properties f) in
  let label := label_of st (properties f) in
  if String.eqb (stype st) "fill" then
    let* n := addBoundaries lyr st label sort (Rings geometries) colorCode in Ok [n]
  else
    mapM (fun points => addBoundaries lyr st label sort (Ring points) colorCode) geometries.

(** One iteration of the feature loop of [_loadLayers].  Without a
    styler, [style] stays [undefined] and [style.paint] throws. *)
Definition process_feature (styler : option Styler) (lyr : string) (f0 : Feature)
    : result (list Node) :=
  let f := set_type f0 in
  match styler with
  | Some getStyleFor =>
      match getStyleFor lyr f with
      | None => Ok []                        (* continue *)
      | Some st => build_nodes lyr st f
      end
  | None => Err (TypeError "Cannot read properties of undefined (reading 'paint')")
  end.

Fixpoint layer_nodes (styler : option Styler) (lyr : string) (fs : list Feature)
    : result (list Node) :=
  match fs with
  | [] => Ok []
  | f :: rest =>
      let* ns := process_feature styler lyr f in
      let* ns' := layer_nodes styler lyr rest in
      Ok (ns ++ ns')
  end.

(** A loaded layer: [{extent, tree}], the R-tree bulk-loaded with the
    nodes (kept here as the list of loaded nodes). *)
Record LoadedLayer := mkLoadedLayer { l_extent : Z; l_tree : list Node }.

(** [_loadLayers()] *)
Fixpoint loadLayers (styler : option Styler) (vt : VectorTile)
    : result (list (string * LoadedLayer)) :=
  match vt with
  | [] => Ok []
  | (name, layer) :: rest =>
      let* nodes := layer_nodes styler name (features layer) in
      let* ls := loadLayers styler rest in
      Ok ((name, mkLoadedLayer (extent layer) nodes) :: ls)
  end.

(** [Tile.load(buffer)]: unzip, parse ([decode] is
    [new VectorTile(new Protobuf(buffer))]), then [_loadLayers]. *)
Definition load (gunzip : list byte -> result (list byte))
    (decode : list byte -> result VectorTile) (styler : option Styler)
    (buffer : list byte) : result (list (string * LoadedLayer)) :=
  let* b := unzipIfNeeded gunzip buffer in
  let* vt := decode b in
  loadLayers styler vt.

End LoadLayers.

(** The colour resolution as the specification words it (a refinement
    target for [resolve_color]): [line-color] if set, else [fill-color]
    if set, else [text-color]; a stops structure gives its first stop's
    value; "set" is JS truthiness, the test [||] makes. *)
Definition claimed_color (p : gmap string PaintVal) : option (option string) :=
  let v := if paint_truthy (p !! "line-color") then p !! "line-color"
           else if paint_truthy (p !! "fill-color") then p !! "fill-color"
           else p !! "text-color" in
  match v with
  | Some (PaintStops stops) => option_map (fun s => Some s.2) (head stops)
  | Some (PaintStr s) => Some (Some s)
  | None => Some None
  end.

(** The first set value of a fallback chain (the last one if none is). *)
Fixpoint first_set (vs : list (option PropVal)) : option PropVal :=
  match vs with
  | [] => None
  | [v] => v
  | v :: rest => if prop_truthy v then v else first_set rest
  end.

(** The label as the specification words it: only for [symbol] styles,
    localized name, English name, generic name, house number, absent. *)
Definition claimed_label (language stype : string) (props : gmap string PropVal)
    : option PropVal :=
  if String.eqb stype "symbol" then
    first_set [props !! ("name_" +:+ language); props !! "name_en";
               props !! "name"; props !! "house_num"]
  else None.

(** The ring a node's bounding box is taken over. *)
Definition bbox_ring (pts : NodePoints) : list point :=
  match pts with Rings (r :: _) => r | Rings [] => [] | Ring r => r end.

Definition rings_of (pts : NodePoints) : list (list point) :=
  match pts with Rings rs => rs | Ring r => [r] end.

(** The bounding-box invariant of a StyledNode. *)
Definition bbox_ok (n : Node) : Prop :=
  minX n <= maxX n /\ minY n <= maxY n /\
  Forall (fun p => minX n <= p.1 <= maxX n /\ minY n <= p.2 <= maxY n)
         (bbox_ring (node_points n)).

Definition sample_feature : Feature :=
  mkFeature 3 {[ "name" := PStr "Lake" ]} [[(0, 0); (10, 0); (10, 10)]; [(2, 2)]].

Definition sample_vt : VectorTile :=
  [("water", mkLayer 4096 [sample_feature])].

Definition fill_styler : Styler :=
  fun _ _ => Some (mkStyle "fill" {[ "fill-color" := PaintStr "#0000ff" ]}).

Definition stops_styler : Styler :=
  fun _ _ => Some (mkStyle "line"
    {[ "line-color" := PaintStops [(0, "#ff0000"); (5, "#00ff00")] ]}).

Definition road_feature : Feature :=
  mkFeature 2 ∅ [[(0, 0); (5, 5)]].

Definition berlin : Feature :=
  mkFeature 1 {[ "name" := PStr "Berlin" ]} [[(13, 52)]].

Definition symbol_styler : Styler :=
  fun _ _ => Some (mkStyle "symbol" {[ "text-color" := PaintStr "#000000" ]}).

End Tile.

(* ================================================================== *)
(** ** TileSource._getHTTP (src/src/TileSource.ts) *)
(* ================================================================== *)

Module TileSourceHTTP.
Import Tile.

(** A JS value that may be a [Buffer] or [undefined]. *)
Inductive JsBuffer := Undefined | Buffer (b : list byte).

(** The effects and the result of one [_getHTTP(z, x, y)] call. *)
Record HttpRun := mkHttpRun {
  fetched_url : option string;               (* fetch(url), if any *)
  persisted : option (string * list byte);   (* _persistTile(z, x, y, buffer) *)
  passed : JsBuffer                          (* buffer given to _createTile *)
}.

(** [path.join(paths.cache, z.toString(), `${x}-${y}.pbf`)] *)
Definition persist_path (cacheDir : string) (z x y : Z) : string :=
  cacheDir +:+ "/" +:+ pretty z +:+ "/" +:+ pretty x +:+ "-" +:+ pretty y +:+ ".pbf".

(** [this.source + [z,x,y].join('/') + '.pbf'] *)
Definition tile_url (src : string) (z x y : Z) : string :=
  src +:+ pretty z +:+ "/" +:+ pretty x +:+ "/" +:+ pretty y +:+ ".pbf".

(** [_getHTTP(z, x, y)].  [persistDownloadedTiles] is the config flag,
    [onDisk] what [_getPersited] read ([false] on failure, a truthy
    [Buffer] otherwise) and [response url] the body [res.buffer()] yields.
<<
      promise = fetch(...).then((res) => res.buffer())
        .then((buffer) => {
          if (config.persistDownloadedTiles) {
            this._persistTile(z, x, y, buffer);
            return buffer;
          }
        });
>> *)
Definition getHTTP (persistDownloadedTiles : bool) (cacheDir : string)
    (onDisk : option (list byte)) (response : string -> list byte)
    (src : string) (z x y : Z) : HttpRun :=
  match persistDownloadedTiles, onDisk with
  | true, Some b => mkHttpRun None None (Buffer b)
  | _, _ =>
      let url := tile_url src z x y in
      let buffer := response url in
      if persistDownloadedTiles then
        mkHttpRun (Some url) (Some (persist_path cacheDir z x y, buffer)) (Buffer buffer)
      else mkHttpRun (Some url) None Undefined
  end.

(** [tile.load(buffer)] on a JS value: [undefined.slice(0, 2)] in
    [_isGzipped] throws inside the promise executor. *)
Definition load_value (language : string) (quantize : option string -> Z)
    (gunzip : list byte -> result (list byte)) (decode : list byte -> result VectorTile)
    (styler : option Styler) (v : JsBuffer) : result (list (string * LoadedLayer)) :=
  match v with
  | Buffer b => load language quantize gunzip decode styler b
  | Undefined => Err (TypeError "Cannot read properties of undefined (reading 'slice')")
  end.

End TileSourceHTTP.

(* ================================================================== *)
(** ** LabelBuffer (src/src/LabelBuffer.ts) *)
(* ================================================================== *)

Module LabelBuffer.

(** Coordinates are JS numbers: rationals ([margin / 2] need not be an
    integer). *)
Record Rect := mkRect { rminX : Q; rminY : Q; rmaxX : Q; rmaxY : Q }.

(** rbush's [intersects(a, b)], on closed rectangles. *)
Definition intersects (a b : Rect) : bool :=
  Qle_bool (rminX b) (rmaxX a) && Qle_bool (rminY b) (rmaxY a) &&
  Qle_bool (rminX a) (rmaxX b) && Qle_bool (rminY a) (rmaxY b).

Section LabelBuffer.

(** The feature a label protects (only carried along). *)
Variable F : Type.
(** [stringWidth(text)] of the string-width package: the display width. *)
Variable stringWidth : string -> nat.

(** An entry of [this.tree]: the reserved area and its feature.  The
    R-tree is kept as the list of its entries (newest first); rbush's
    [collides(bbox)] holds iff some entry intersects [bbox]. *)
Definition Entry := (Rect * F)%type.

Definition collides (tree : list Entry) (r : Rect) : bool :=
  existsb (fun e => intersects r e.1) tree.

(** [project(x, y)]: [[Math.floor(x/2), Math.floor(y/4)]] *)
Definition project (x y : Q) : Q * Q :=
  (inject_Z (Qfloor (x / 2)), inject_Z (Qfloor (y / 4))).

(** [_calculateArea(text, x, y, margin = 0)] *)
Definition calculateArea (text : string) (x y margin : Q) : Rect :=
  mkRect (x - margin) (y - margin / 2)
         (x + margin + inject_Z (Z.of_nat (stringWidth text))) (y + margin / 2).

(** [_hasSpace(text, x, y)]: tested with the default margin 0. *)
Definition hasSpace (tree : list Entry) (text : string) (x y : Q) : bool :=
  negb (collides tree (calculateArea text x y 0)).

(** A [writeIfPossible] call; [margin = None] is an omitted argument. *)
Record Call := mkCall { text : string; px : Q; py : Q; feature : F; margin : option Q }.

(** [margin = margin || this.margin] with [this.margin = 5]. *)
Definition effective_margin (m : option Q) : Q :=
  match m with
  | Some m => if Qeq_bool m 0 then 5 else m
  | None => 5
  end.

(** The footprint [_hasSpace] tests (no margin) and the padded footprint
    that is inserted. *)
Definition test_area (c : Call) : Rect :=
  let '(x, y) := project (px c) (py c) in calculateArea (text c) x y 0.

Definition padded_area (c : Call) : Rect :=
  let '(x, y) := project (px c) (py c) in
  calculateArea (text c) x y (effective_margin (margin c)).

(** [writeIfPossible(text, x, y, feature, margin)] *)
Definition writeIfPossible (tree : list Entry) (c : Call) : bool * list Entry :=
  let m := effective_margin (margin c) in
  let '(x, y) := project (px c) (py c) in
  if hasSpace tree (text c) x y then
    (true, (calculateArea (text c) x y m, feature c) :: tree)
  else (false, tree).

(** A sequence of calls after [clear()]; the second component logs the
    calls that returned [true], newest first. *)
Fixpoint run (tree : list Entry) (placed : list Call) (calls : list Call)
    : list Entry * list Call :=
  match calls with
  | [] => (tree, placed)
  | c :: rest =>
      match writeIfPossible tree c with
      | (true, tree') => run tree' (c :: placed) rest
      | (false, tree') => run tree' placed rest
      end
  end.

(** Each successful placement's tested footprint is disjoint from the
    padded footprints of all placements before it ([placed] newest
    first). *)
Fixpoint separated (placed : list Call) : Prop :=
  match placed with
  | [] => True
  | b :: earlier =>
      Forall (fun a => intersects (test_area b) (padded_area a) = false) earlier /\
      separated earlier
  end.

End LabelBuffer.

Definition cx_label_a : Call unit := mkCall unit "a" 0 0 tt None.
Definition cx_label_b : Call unit := mkCall unit "a" 14 0 tt None.

End LabelBuffer.

(* ================================================================== *)
(** ** BrailleBuffer (src/unnamed/part_001) *)
(* ================================================================== *)

Module BrailleBuffer.

(** JS [ToInt32], applied by the bit operators [>>] and [&]. *)
Definition toInt32 (v : Z) : Z :=
  let m := v mod 2 ^ 32 in if m <? 2 ^ 31 then m else m - 2 ^ 32.

Definition shr (v k : Z) : Z := Z.shiftr (toInt32 v) k.
Definition band (v k : Z) : Z := Z.land (toInt32 v) k.

(** [this.brailleMap = [[0x1, 0x8],[0x2, 0x10],[0x4, 0x20],[0x40, 0x80]]] *)
Definition brailleMap : list (list Z) :=
  [[1; 8]; [2; 16]; [4; 32]; [64; 128]].

Definition brailleMask (row col : Z) : Z :=
  nth (Z.to_nat col) (nth (Z.to_nat row) brailleMap []) 0.

(** The canvas state.  The three [Buffer]s are byte arrays of fixed
    length; [charBuffer] is a sparse JS array. *)
Record Canvas := mkCanvas {
  width : Z;
  height : Z;
  pixelBuffer : list Z;
  foregroundBuffer : list Z;
  backgroundBuffer : list Z;
  charBuffer : gmap Z string
}.

(** [Buffer.alloc(width*height/8)]: the length is truncated to an
    integer. *)
Definition create (w h : Z) : Canvas :=
  let size := Z.to_nat (w * h / 8) in
  mkCanvas w h (repeat 0 size) (repeat 0 size) (repeat 0 size) ∅.

(** [buf[idx]] (an out-of-range read is [undefined], which [|=] treats as
    0) and [buf[idx] = v] (ignored out of range; the byte is [v] mod 256). *)
Definition buf_get (b : list Z) (i : Z) : Z :=
  if (0 <=? i) then match b !! Z.to_nat i with Some v => v | None => 0 end else 0.

Definition buf_set (b : list Z) (i v : Z) : list Z :=
  if (0 <=? i) && (i <? Z.of_nat (length b)) then <[Z.to_nat i := v mod 256]> b else b.

Definition in_bounds (c : Canvas) (x y : Z) : bool :=
  (0 <=? x) && (x <? width c) && (0 <=? y) && (y <? height c).

(** [_project(x, y)]: [(x>>1) + (this.width>>1)*(y>>2)] *)
Definition project (c : Canvas) (x y : Z) : Z :=
  shr x 1 + shr (width c) 1 * shr y 2.

(** [setPixel(x, y, color)] through [_locate]. *)
Definition setPixel (c : Canvas) (x y color : Z) : Canvas :=
  if in_bounds c x y then
    let idx := project c x y in
    let mask := brailleMask (band y 3) (band x 1) in
    mkCanvas (width c) (height c)
      (buf_set (pixelBuffer c) idx (Z.lor (buf_get (pixelBuffer c) idx) mask))
      (buf_set (foregroundBuffer c) idx color)
      (backgroundBuffer c) (charBuffer c)
  else c.

(** [unsetPixel(x, y)] through [_locate]. *)
Definition unsetPixel (c : Canvas) (x y : Z) : Canvas :=
  if in_bounds c x y then
    let idx := project c x y in
    let mask := brailleMask (band y 3) (band x 1) in
    mkCanvas (width c) (height c)
      (buf_set (pixelBuffer c) idx (Z.land (buf_get (pixelBuffer c) idx) (Z.lnot mask)))
      (foregroundBuffer c) (backgroundBuffer c) (charBuffer c)
  else c.

(** [setChar(char, x, y, color)] *)
Definition setChar (c : Canvas) (ch : string) (x y color : Z) : Canvas :=
  if in_bounds c x y then
    let idx := project c x y in
    mkCanvas (width c) (height c) (pixelBuffer c)
      (buf_set (foregroundBuffer c) idx color)
      (backgroundBuffer c) (<[idx := ch]> (charBuffer c))
  else c.

(** [setBackground(x, y, color)] *)
Definition setBackground (c : Canvas) (x y color : Z) : Canvas :=
  if in_bounds c x y then
    let idx := project c x y in
    mkCanvas (width c) (height c) (pixelBuffer c) (foregroundBuffer c)
      (buf_set (backgroundBuffer c) idx color) (charBuffer c)
  else c.

(** The block glyphs of [asciiMap], and the blank [' ']. *)
Inductive Glyph :=
  | UpperHalf    (* U+2580 *)
  | LowerHalf    (* U+2584 *)
  | BlackSquare  (* U+25A0 *)
  | LeftHalf     (* U+258C *)
  | RightHalf    (* U+2590 *)
  | FullBlock    (* U+2588 *)
  | Blank.

(** [asciiMap], in declaration ([for ... in]) order. *)
Definition asciiMap : list (Glyph * list Z) :=
  [(UpperHalf, [1+2+16+32]); (LowerHalf, [4+8+64+128]); (BlackSquare, [2+4+32+64]);
   (LeftHalf, [1+2+4+8]); (RightHalf, [16+32+64+128]); (FullBlock, [255])].

Record MaskEntry := mkMaskEntry { m_char : Glyph; covered : Z; mask : Z }.

(** The [masks] array built by [_mapBraille]. *)
Definition masks : list MaskEntry :=
  flat_map (fun '(g, bits) => map (fun m => mkMaskEntry g 0 m) bits) asciiMap.

(** Modelled from the spec: [utils.population] (utils.ts is not among the
    sources), the number of set bits ("popcount") of a non-negative
    integer, counted bit by bit while the value is positive. *)
Fixpoint population_go (fuel : nat) (v : Z) : Z :=
  match fuel with
  | O => 0
  | S f => if v <=? 0 then 0 else Z.land v 1 + population_go f (Z.shiftr v 1)
  end.

Definition population (v : Z) : Z := population_go 32 v.

(** [(i & 7) + ((i & 56) << 1) + ((i & 64) >> 3) + (i & 128)]: the pixel
    mask re-laid-out in [asciiMap]'s bit order (left column bits 0-3,
    right column bits 4-7). *)
Definition braille_of (i : Z) : Z :=
  Z.land i 7 + Z.shiftl (Z.land i 56) 1 + Z.shiftr (Z.land i 64) 3 + Z.land i 128.

(** [masks.reduce((best, mask) => ...)] without an initial value: the
    accumulator starts as [masks[0]] with its [covered: 0], and [!best]
    never holds for an object. *)
Definition reduce_best (ms : list MaskEntry) (braille : Z) : option MaskEntry :=
  match ms with
  | [] => None      (* TypeError: reduce of empty array *)
  | m0 :: rest =>
      Some (foldl (fun best m =>
               let cov := population (Z.land (mask m) braille) in
               if covered best <? cov then mkMaskEntry (m_char m) cov (mask m) else best)
             m0 rest)
  end.

(** [this.asciiToBraille]: index 0 is [' '], index [i] in 1..255 the
    reduce's character. *)
Definition asciiToBraille : list Glyph :=
  Blank :: map (fun k => match reduce_best masks (braille_of (Z.of_nat k)) with
                         | Some m => m_char m | None => Blank end)
               (seq 1 255).

(** The choice the specification describes: the first candidate (in
    declaration order) whose coverage has maximal overlap with [target]. *)
Definition claimed_choice (target : Z) : option Glyph :=
  let score m := population (Z.land (mask m) target) in
  let best := foldl Z.max 0 (map score masks) in
  option_map m_char (List.find (fun m => score m =? best) masks).

End BrailleBuffer.

(* ================================================================== *)
(** ** TileSource: requests run from a fresh source (src/src/TileSource.ts) *)
(* ================================================================== *)

Module TileSourceRun.
Import TileSource.

(** Decimal digits, as written by [pretty]. *)
Definition is_digit (c : ascii) : bool :=
  (48 <=? nat_of_ascii c)%nat && (nat_of_ascii c <=? 57)%nat.

(** Strings of digits only: the keys ["0"], ["1"], ... that the
    [for...in] eviction loop of [getTile] deletes. *)
Fixpoint all_digits (s : string) : bool :=
  match s with EmptyString => true | String c r => is_digit c && all_digits r end.




End TileSourceRun.

(* ================================================================== *)
(** ** Tile: nodes per feature (src/src/Tile.ts) *)
(* ================================================================== *)

Module TileCount.
Import Tile.

(** How many nodes [_loadLayers] adds for a feature: none when the
    styler gives no style, one for a [fill] (all rings together), one
    per ring otherwise. *)
Definition feature_node_count (get : Styler) (lyr : string) (f : Feature) : nat :=
  match get lyr (set_type f) with
  | None => 0%nat
  | Some st => if String.eqb (stype st) "fill" then 1%nat else length (geometry f)
  end.

End TileCount.

(* ================================================================== *)
(** ** TileSource._getHTTP against a file store (src/src/TileSource.ts) *)
(* ================================================================== *)

Module TileSourceHTTPStore.
Import Tile TileSourceHTTP.

(** [_getHTTP] with the persisted-tiles directory as a file store:
    [_getPersited] reads the tile's path, [_persistTile] writes it (its
    asynchronous [fs.writeFile] taken as finished before the next
    request). *)
Definition getHTTP_fs (persistDownloadedTiles : bool) (cacheDir : string)
    (fs : gmap string (list byte)) (response : string -> list byte)
    (src : string) (z x y : Z) : gmap string (list byte) * HttpRun :=
  let r := getHTTP persistDownloadedTiles cacheDir (fs !! persist_path cacheDir z x y)
                   response src z x y in
  (match persisted r with Some (p, b) => <[p := b]> fs | None => fs end, r).

End TileSourceHTTPStore.

(* ================================================================== *)
(** ** BrailleBuffer: clear, writeText, _termColor and frame (src/unnamed/part_001) *)
(* ================================================================== *)

Module BrailleCanvas.
Import BrailleBuffer.

(** [clear()]: the three [Buffer]s filled with 0, [charBuffer = []]. *)
Definition clear (c : Canvas) : Canvas :=
  mkCanvas (width c) (height c) (map (fun _ => 0) (pixelBuffer c))
    (map (fun _ => 0) (foregroundBuffer c)) (map (fun _ => 0) (backgroundBuffer c)) ∅.











(** The escape character [\x1B]. *)
Definition ESC : string := String (Ascii.ascii_of_nat 27) EmptyString.

(** [termReset] *)
Definition termReset : string := ESC +:+ "[39;49m".

(** A [number] read from a [Buffer] ([undefined] out of range) is
    truthy when it is defined and non-zero. *)
Definition num_truthy (v : option Z) : bool :=
  match v with Some n => negb (n =? 0) | None => false end.

(** [${n}] of a [number | undefined] read. *)
Definition show_num (v : option Z) : string :=
  match v with Some n => pretty n | None => "undefined" end.

(** [_termColor(foreground, background)] with [this.globalBackground]
    ([null] is [None]); [??] falls back only on [undefined]. *)
Definition termColor (globalBackground : option Z) (foreground background : option Z) : string :=
  let actualBackground := match background with Some b => Some b | None => globalBackground end in
  if num_truthy foreground && num_truthy actualBackground then
    ESC +:+ "[38;5;" +:+ show_num foreground +:+ ";48;5;" +:+ show_num actualBackground +:+ "m"
  else if num_truthy foreground then
    ESC +:+ "[49;38;5;" +:+ show_num foreground +:+ "m"
  else if num_truthy actualBackground then
    ESC +:+ "[39;48;5;" +:+ show_num actualBackground +:+ "m"
  else termReset.

(** The elements [frame] pushes on [output], tagged by the statement
    that pushes them: [config.delimeter], a colour code, a label
    character, a braille cell ([String.fromCharCode(0x2800 + byte)]), an
    ASCII cell ([this.asciiToBraille[byte]]), and the final
    [termReset + config.delimeter]. *)
Inductive Piece :=
  | PDelim
  | PColor (code : string)
  | PChar (s : string)
  | PBraille (cell : option Z)
  | PAscii (cell : option Z)
  | PEnd.

(** [idx = y*this.width/2 + x]: not an integer when [y*width] is odd,
    and then every [buf[idx]] read is [undefined]. *)
Definition frame_idx (c : Canvas) (y x : Z) : option Z :=
  if (y * width c) mod 2 =? 0 then Some (y * width c / 2 + x) else None.

(** [buf[idx]]: [undefined] ([None]) out of range or at a non-integer
    index. *)
Definition rd (b : list Z) (idx : option Z) : option Z :=
  match idx with Some i => if 0 <=? i then b !! Z.to_nat i else None | None => None end.

(** [idx] as a condition: a non-integer index is non-zero. *)
Definition idx_truthy (idx : option Z) : bool :=
  match idx with Some i => negb (i =? 0) | None => true end.

(** [this.charBuffer[idx]]. *)
Definition char_at (c : Canvas) (idx : option Z) : option string :=
  match idx with Some i => charBuffer c !! i | None => None end.

Section Frame.
Variable stringWidth : string -> Z.
Variable useBraille : bool.        (* config.useBraille *)
Variable globalBackground : option Z.

(** The cell pushed when no label covers it. *)
Definition pixel_piece (c : Canvas) (idx : option Z) : Piece :=
  if useBraille then PBraille (rd (pixelBuffer c) idx) else PAscii (rd (pixelBuffer c) idx).

(** The loop state: [output] (latest first), [currentColor], [skip]. *)
Definition FState : Type := list Piece * option string * Z.

(** One pass of the inner loop body. *)
Definition frame_cell (c : Canvas) (st : FState) (y x : Z) : FState :=
  let '(out, cur, skip) := st in
  let idx := frame_idx c y x in
  let out := if idx_truthy idx && (x =? 0) then PDelim :: out else out in
  let colorCode := termColor globalBackground (rd (foregroundBuffer c) idx)
                     (rd (backgroundBuffer c) idx) in
  let '(out, cur) :=
    if decide (cur = Some colorCode) then (out, cur) else (PColor colorCode :: out, Some colorCode) in
  let pixel := fun (out : list Piece) =>
    if skip =? 0 then (pixel_piece c idx :: out, cur, skip) else (out, cur, skip - 1) in
  match char_at c idx with
  | Some ch =>
      if String.eqb ch "" then pixel out
      else let skip := skip + stringWidth ch - 1 in
           ((if 2 * (skip + x) <? width c then PChar ch :: out else out), cur, skip)
  | None => pixel out
  end.

(** [x = 0, 1, ...] while [x < this.width/2], and
    [y = 0, 1, ...] while [y < this.height/4]. *)
Definition frame_cols (c : Canvas) : list Z := map Z.of_nat (seq 0 (Z.to_nat ((width c + 1) / 2))).
Definition frame_rows (c : Canvas) : list Z := map Z.of_nat (seq 0 (Z.to_nat ((height c + 3) / 4))).

(** One pass of the outer loop body: [skip = 0], then the row. *)
Definition frame_row (c : Canvas) (st : FState) (y : Z) : FState :=
  let '(out, cur, _) := st in
  fold_left (fun st x => frame_cell c st y x) (frame_cols c) (out, cur, 0).

(** [frame()], as the [output] array before [join('')]. *)
Definition frame (c : Canvas) : list Piece :=
  let '(out, _, _) := fold_left (frame_row c) (frame_rows c) ([], None, 0) in
  rev (PEnd :: out).

End Frame.

(** Pieces that are not colour codes, and the cells. *)
Definition not_color (p : Piece) : bool := match p with PColor _ => false | _ => true end.

Definition is_cell (p : Piece) : bool :=
  match p with PBraille _ | PAscii _ => true | _ => false end.

(** The visible layout: one row of cells per four pixel rows, rows
    after the first preceded by the delimiter. *)
Definition row_pieces (useBraille : bool) (c : Canvas) (y : Z) : list Piece :=
  map (fun x => pixel_piece useBraille c (Some (y * (width c / 2) + x))) (frame_cols c).

(** The delimiter pushed before the cell of index [i] and column [x]. *)
Definition delim_if (i x : Z) : list Piece :=
  if negb (i =? 0) && (x =? 0) then [PDelim] else [].

(** The colour codes of an output array, in order. *)
Fixpoint colors (l : list Piece) : list string :=
  match l with
  | [] => []
  | PColor s :: t => s :: colors t
  | _ :: t => colors t
  end.

(** No two consecutive entries are equal. *)
Definition no_repeat (l : list string) : Prop :=
  forall l1 l2 a b, l = l1 ++ a :: b :: l2 -> a <> b.

(** A [stringWidth] for ASCII labels. *)
Definition label_width (s : string) : Z := Z.of_nat (String.length s).

End BrailleCanvas.

(* ================================================================== *)
(** ** Mapscii: _resizeRenderer and zoomBy (src/unnamed/part_000) *)
(* ================================================================== *)

Module Mapscii.
Import BrailleBuffer.

(** [config.size]: an object with optional [width] and [height]; the
    terminal's [columns] and [rows] and the configured sizes are
    integers. *)
Record SizeConfig := mkSizeConfig { size_width : option Z; size_height : option Z }.

(** [config.size && config.size.width] (resp. [height]) when truthy. *)
Definition truthy_dim (size : option SizeConfig) (f : SizeConfig -> option Z) : option Z :=
  match size with
  | Some s => match f s with Some v => if v =? 0 then None else Some v | None => None end
  | None => None
  end.

(** [_resizeRenderer]'s [this.width] and [this.height]. *)
Definition resize_width (size : option SizeConfig) (columns : Z) : Z :=
  match truthy_dim size size_width with
  | Some w => w * 2
  | None => toInt32 (Z.shiftl (shr columns 1) 2)
  end.

Definition resize_height (size : option SizeConfig) (rows : Z) : Z :=
  match truthy_dim size size_height with
  | Some h => h * 4
  | None => rows * 4 - 4
  end.

(** [zoomBy(step)] with [this.zoom], [this.minZoom] and
    [config.maxZoom]; the new [this.zoom]. *)
Definition zoomBy (zoom minZoom maxZoom step : Q) : Q :=
  if Qlt_le_dec (zoom + step) minZoom then minZoom
  else if Qlt_le_dec maxZoom (zoom + step) then maxZoom
  else zoom + step.

End Mapscii.

(* ================================================================== *)
(** * Proofs *)
(* ================================================================== *)

Module TileSourceProofs.
Import TileSource.

Lemma evict_fields (ts : TileSource) :
  cacheSize (evict ts) = cacheSize ts /\ mode (evict ts) = mode ts /\
  cached (evict ts) =
    (if (cacheSize ts <? length (cached ts))%nat
     then drop (length (cached ts) - cacheSize ts) (cached ts) else cached ts).
Proof.
  unfold evict. destruct (cacheSize ts <? length (cached ts))%nat eqn:E; simpl; auto.
  apply Nat.ltb_lt in E. repeat split. f_equal. lia.
Qed.

Lemma getTile_step (ts ts1 : TileSource) (z x y : Z) (o : Outcome) :
  (mode ts = Some HTTP \/ mode ts = Some MBTiles) ->
  getTile ts z x y = Some (ts1, o) ->
  cacheSize ts1 = cacheSize ts /\ mode ts1 = mode ts /\
  ((exists t, o = Hit t /\ cached ts1 = cached ts) \/
   (o = Loaded (mkTile z x y) /\
    cached ts1 = fifo_push (cacheSize ts) (cached ts) (key_of z x y))).
Proof.
  intros Hm Hg. unfold getTile in Hg.
  destruct Hm as [Hm | Hm]; rewrite Hm in Hg;
  destruct (cache ts !! key_of z x y) as [t|] eqn:Hc; simplify_eq/=;
  try (repeat split; eauto; fail);
  destruct (evict_fields ts) as (E1 & E2 & E3); simpl;
  (repeat split; [assumption | assumption | right; split; [reflexivity|]]);
  unfold fifo_push; rewrite E3; reflexivity.
Qed.

Lemma run_cached (calls : list (Z * Z * Z)) :
  forall (ts ts' : TileSource) (os : list Outcome),
  (mode ts = Some HTTP \/ mode ts = Some MBTiles) ->
  run ts calls = Some (ts', os) ->
  cacheSize ts' = cacheSize ts /\
  cached ts' = foldl (fifo_push (cacheSize ts)) (cached ts) (missed os).
Proof.
  induction calls as [|[[z x] y] rest IH]; intros ts ts' os Hm Hr; simpl in Hr.
  - simplify_eq/=. auto.
  - destruct (getTile ts z x y) as [[ts1 o]|] eqn:Hg; [|discriminate].
    destruct (run ts1 rest) as [[ts2 os2]|] eqn:Hr2; [|discriminate].
    simplify_eq/=.
    destruct (getTile_step ts ts1 z x y o Hm Hg) as (Hs & Hmo & Hcase).
    destruct (IH ts1 ts' os2) as [IH1 IH2]; [rewrite Hmo; exact Hm | exact Hr2 |].
    rewrite IH1, Hs. split; [reflexivity|].
    destruct Hcase as [[t [-> Hc]] | [-> Hc]]; simpl; rewrite IH2, Hc, Hs; reflexivity.
Qed.

Lemma fifo_fold (B : nat) (ms : list string) :
  foldl (fifo_push B) [] ms = drop (length ms - S B) ms.
Proof.
  induction ms as [|k ms IH] using rev_ind; [reflexivity|].
  rewrite foldl_app, IH. simpl. unfold fifo_push.
  rewrite length_app, length_drop. simpl.
  destruct (B <? length ms - (length ms - S B))%nat eqn:E.
  - apply Nat.ltb_lt in E. rewrite drop_drop, drop_app_le by lia.
    f_equal. f_equal. lia.
  - apply Nat.ltb_ge in E. replace (length ms - S B)%nat with 0%nat by lia.
    replace (length ms + 1 - S B)%nat with 0%nat by lia. reflexivity.
Qed.

(** [init] yields a TileSource with an empty cache and a mode that
    [getTile] dispatches. *)
Lemma init_fresh (src : string) (ts0 : TileSource) :
  init src = Some ts0 ->
  cached ts0 = [] /\ cacheSize ts0 = 16%nat /\
  (mode ts0 = Some HTTP \/ mode ts0 = Some MBTiles).
Proof.
  unfold init. destruct (String.prefix "http" src); [|destruct (ends_with ".mbtiles" src)];
  intros H; simplify_eq/=; auto.
Qed.

(** The insertion-order list under [getTile].  For every sequence of
    [getTile] calls on an initialised TileSource with cache bound [B] (16), once [N > B] calls
    have missed the cache, the insertion-order list [cached] holds exactly
    the [B + 1] most recently inserted keys, oldest first: each miss drops
    the oldest entries beyond [B] (FIFO) before appending its own key. *)
Theorem getTile_fifo_insertion_order (src : string) (ts0 ts : TileSource)
    (calls : list (Z * Z * Z)) (os : list Outcome) :
  init src = Some ts0 ->
  run ts0 calls = Some (ts, os) ->
  (cacheSize ts0 < length (missed os))%nat ->
  cached ts = drop (length (missed os) - S (cacheSize ts0)) (missed os) /\
  length (cached ts) = S (cacheSize ts0).
Proof.
  intros Hi Hr HB.
  destruct (init_fresh src ts0 Hi) as (Hc & _ & Hm).
  destruct (run_cached calls ts0 ts os Hm Hr) as [_ Hcd].
  rewrite Hc, fifo_fold in Hcd. rewrite Hcd. split; [reflexivity|].
  rewrite length_drop. lia.
Qed.

Lemma getTile_fifo_witness :
  match cx_run with
  | Some (ts, os) =>
      (16 < length (missed os))%nat /\
      cached ts = drop (length (missed os) - 17) (missed os) /\
      length (cached ts) = 17%nat
  | None => False
  end.
Proof.
  change cx_run with (run cx_ts0 cx_calls).
  destruct (run cx_ts0 cx_calls) as [[ts os]|] eqn:E; [|vm_compute in E; discriminate].
  assert (HB : (16 < length (missed os))%nat).
  { pose proof E as E'. vm_compute in E'. injection E' as _ <-. vm_compute. lia. }
  split; [exact HB|].
  exact (getTile_fifo_insertion_order "http://tiles/" cx_ts0 ts cx_calls os eq_refl E HB).
Defined.

(** Claim C1: every evicted key is absent from later lookups.  It fails:
    with bound 16, after 18 misses the key of the first miss ("0-0-0", not
    among the 16 most recent) is still found by the next [getTile] (a hit),
    the map still holds all 18 tiles, and the insertion-order list holds
    17 keys.  The eviction loop's [for...in] walks the indices of the
    spliced array, so it deletes the keys "0", "1", ... of the map. *)
Lemma getTile_fifo_counterexample :
  match cx_run with
  | Some (ts, os) =>
      length (missed os) = 18%nat /\
      bool_decide (key_of 0 0 0 ∈ drop 2 (missed os)) = false /\
      last os = Some (Hit (mkTile 0 0 0)) /\
      size (cache ts) = 18%nat /\
      length (cached ts) = 17%nat
  | None => False
  end.
Proof. vm_compute. repeat split. Qed.

End TileSourceProofs.

Module TileProofs.
Import Tile.

Lemma bind_Ok {A B} (m : result A) (f : A -> result B) (y : B) :
  bind m f = Ok y -> exists a, m = Ok a /\ f a = Ok y.
Proof. destruct m; simpl; [eauto | discriminate]. Qed.

Lemma mapM_Forall {A B} (f : A -> result B) (P : B -> Prop) (l : list A) (ys : list B) :
  Forall (fun a => forall b, f a = Ok b -> P b) l ->
  mapM f l = Ok ys -> Forall P ys.
Proof.
  revert ys. induction l as [|a l IH]; intros ys Hl H; simpl in H.
  - injection H as <-. constructor.
  - inversion Hl as [|? ? Ha Hrest]; subst.
    apply bind_Ok in H as (b & Hb & H). apply bind_Ok in H as (bs & Hbs & H).
    injection H as <-. constructor; [exact (Ha b Hb) | exact (IH bs Hrest Hbs)].
Qed.

(** Bounding boxes: the fold of [_addBoundaries] only widens the box and
    ends with every point of the ring inside it. *)
Lemma fold_bounds (r : list point) :
  forall mnx mxx mny mxy a b c d,
  foldl bounds_step (mnx, mxx, mny, mxy) r = (a, b, c, d) ->
  a <= mnx /\ mxx <= b /\ c <= mny /\ mxy <= d /\
  Forall (fun p => a <= p.1 <= b /\ c <= p.2 <= d) r.
Proof.
  induction r as [|[px py] r IH]; intros mnx mxx mny mxy a b c d H; simpl in H.
  - injection H as <- <- <- <-. repeat split; try lia. constructor.
  - destruct (IH _ _ _ _ _ _ _ _ H) as (H1 & H2 & H3 & H4 & Hr).
    repeat split;
      try (destruct (px <? mnx) eqn:E1; destruct (mxx <? px) eqn:E2;
           destruct (py <? mny) eqn:E3; destruct (mxy <? py) eqn:E4;
           rewrite ?Z.ltb_lt, ?Z.ltb_ge in *; lia).
    constructor; [|exact Hr]. simpl.
    destruct (px <? mnx) eqn:E1; destruct (mxx <? px) eqn:E2;
    destruct (py <? mny) eqn:E3; destruct (mxy <? py) eqn:E4;
    rewrite ?Z.ltb_lt, ?Z.ltb_ge in *; lia.
Qed.

Lemma addBoundaries_ok (lyr : string) (st : Style) (label sort : option PropVal)
    (pts : NodePoints) (color : Z) (n : Node) :
  Forall (fun r => r <> []) (rings_of pts) ->
  addBoundaries lyr st label sort pts color = Ok n ->
  bbox_ok n /\ node_points n = pts /\ node_style n = st /\
  node_label n = label /\ node_color n = color.
Proof.
  intros Hne H. unfold addBoundaries in H.
  assert (Hr : exists r, r = bbox_ring pts /\ r <> [] /\
             (match pts with Rings (r0 :: _) => Ok r0
                | Rings [] => Err (TypeError "points is not iterable")
                | Ring r0 => Ok r0 end) = Ok r).
  { destruct pts as [[|r0 rs]|r0]; simpl in *.
    - discriminate.
    - inversion Hne; subst. eauto.
    - inversion Hne; subst. eauto. }
  destruct Hr as (r & Hr & Hrne & Hm). rewrite Hm in H. simpl in H.
  unfold ring_bounds in H.
  destruct (foldl bounds_step (big, - big, big, - big) r) as [[[a b] c] d] eqn:Hf.
  injection H as <-. unfold bbox_ok. simpl. rewrite <- Hr.
  destruct (fold_bounds r _ _ _ _ _ _ _ _ Hf) as (_ & _ & _ & _ & Hin).
  destruct r as [|p0 r']; [contradiction|].
  inversion Hin as [|? ? Hp0 _]; subst.
  repeat split; try lia; assumption.
Qed.

Lemma addBoundaries_fields (lyr : string) (st : Style) (label sort : option PropVal)
    (pts : NodePoints) (color : Z) (n : Node) :
  addBoundaries lyr st label sort pts color = Ok n ->
  node_points n = pts /\ node_style n = st /\ node_label n = label /\ node_color n = color.
Proof.
  unfold addBoundaries. intros H. apply bind_Ok in H as (r & _ & H).
  destruct (ring_bounds r) as [[[a b] c] d]. injection H as <-. auto.
Qed.

Section TileLoadProofs.

Variable language : string.
Variable quantize : option string -> Z.

Lemma layer_nodes_Forall (styler : option Styler) (lyr : string) (P : Node -> Prop)
    (fs : list Feature) (ns : list Node) :
  Forall (fun f => forall ns', process_feature language quantize styler lyr f = Ok ns' ->
                               Forall P ns') fs ->
  layer_nodes language quantize styler lyr fs = Ok ns -> Forall P ns.
Proof.
  revert ns. induction fs as [|f fs IH]; intros ns Hfs H; simpl in H.
  - injection H as <-. constructor.
  - inversion Hfs as [|? ? Hf Hrest]; subst.
    apply bind_Ok in H as (a & Ha & H). apply bind_Ok in H as (b & Hb & H).
    injection H as <-. apply Forall_app. split; [exact (Hf a Ha) | exact (IH b Hrest Hb)].
Qed.

Lemma loadLayers_Forall (styler : option Styler) (P : Node -> Prop)
    (vt : VectorTile) (out : list (string * LoadedLayer)) :
  Forall (fun nl => Forall (fun f => forall ns,
            process_feature language quantize styler nl.1 f = Ok ns -> Forall P ns)
          (features nl.2)) vt ->
  loadLayers language quantize styler vt = Ok out ->
  Forall (fun nl => Forall P (l_tree nl.2)) out.
Proof.
  revert out. induction vt as [|[name layer] vt IH]; intros out Hvt H; simpl in H.
  - injection H as <-. constructor.
  - inversion Hvt as [|? ? Hl Hrest]; subst.
    apply bind_Ok in H as (a & Ha & H). apply bind_Ok in H as (b & Hb & H).
    injection H as <-. constructor.
    + exact (layer_nodes_Forall styler name P _ _ Hl Ha).
    + exact (IH b Hrest Hb).
Qed.

(** Everything [build_nodes] produces carries the style, label and colour
    computed once for the feature, and one ring per node ([Ring]) unless
    the style is a fill ([Rings], all rings). *)
Lemma build_nodes_shape (lyr : string) (st : Style) (f : Feature) (ns : list Node) :
  Forall (fun r => r <> []) (geometry f) ->
  build_nodes language quantize lyr st f = Ok ns ->
  exists c, resolve_color (paint st) = Ok c /\
  Forall (fun n => bbox_ok n /\ node_style n = st /\
                   node_label n = label_of language st (properties f) /\
                   node_color n = quantize c /\
                   (if String.eqb (stype st) "fill"
                    then node_points n = Rings (geometry f)
                    else exists r, node_points n = Ring r)) ns.
Proof.
  intros Hne H. unfold build_nodes in H.
  apply bind_Ok in H as (c & Hc & H). exists c. split; [exact Hc|].
  destruct (String.eqb (stype st) "fill") eqn:Ef.
  - apply bind_Ok in H as (n & Hn & H). injection H as <-.
    apply addBoundaries_ok in Hn as (Hb & Hp & Hs & Hl & Hcol); [|exact Hne].
    constructor; [exact (conj Hb (conj Hs (conj Hl (conj Hcol Hp)))) | constructor].
  - eapply mapM_Forall; [|exact H].
    apply Forall_forall. intros r Hr n Hn.
    apply addBoundaries_ok in Hn as (Hb & Hp & Hs & Hl & Hcol).
    + exact (conj Hb (conj Hs (conj Hl (conj Hcol (ex_intro _ r Hp))))).
    + constructor; [|constructor]. rewrite Forall_forall in Hne. apply Hne, Hr.
Qed.

Lemma process_feature_shape (styler : option Styler) (lyr : string) (f : Feature)
    (ns : list Node) :
  Forall (fun r => r <> []) (geometry f) ->
  process_feature language quantize styler lyr f = Ok ns ->
  match styler with
  | Some get =>
      match get lyr (set_type f) with
      | Some st => exists c, resolve_color (paint st) = Ok c /\
          Forall (fun n => bbox_ok n /\ node_style n = st /\
                   node_label n = label_of language st (properties (set_type f)) /\
                   node_color n = quantize c /\
                   (if String.eqb (stype st) "fill"
                    then node_points n = Rings (geometry f)
                    else exists r, node_points n = Ring r)) ns
      | None => ns = []
      end
  | None => False
  end.
Proof.
  intros Hne H. unfold process_feature in H.
  destruct styler as [get|]; [|discriminate].
  destruct (get lyr (set_type f)) as [st|]; [|injection H as <-; reflexivity].
  exact (build_nodes_shape lyr st (set_type f) ns Hne H).
Qed.

Lemma build_nodes_fields (lyr : string) (st : Style) (f : Feature) (ns : list Node) :
  build_nodes language quantize lyr st f = Ok ns ->
  exists c, resolve_color (paint st) = Ok c /\
  Forall (fun n => node_style n = st /\
                   node_label n = label_of language st (properties f) /\
                   node_color n = quantize c) ns.
Proof.
  intros H. unfold build_nodes in H.
  apply bind_Ok in H as (c & Hc & H). exists c. split; [exact Hc|].
  destruct (String.eqb (stype st) "fill").
  - apply bind_Ok in H as (n & Hn & H). injection H as <-.
    apply addBoundaries_fields in Hn as (_ & Hs & Hl & Hcol).
    constructor; [auto | constructor].
  - eapply mapM_Forall; [|exact H].
    apply Forall_forall. intros r _ n Hn.
    apply addBoundaries_fields in Hn as (_ & Hs & Hl & Hcol). auto.
Qed.

Lemma layer_nodes_null_styler (lyr : string) (fs : list Feature) :
  match layer_nodes language quantize None lyr fs with
  | Ok ns => fs = [] /\ ns = []
  | Err _ => fs <> []
  end.
Proof. destruct fs; simpl; [auto | discriminate]. Qed.

Lemma loadLayers_null_styler (vt : VectorTile) :
  (exists e, loadLayers language quantize None vt = Err e) <->
  Exists (fun nl => features nl.2 <> []) vt.
Proof.
  induction vt as [|[name layer] vt IH]; simpl.
  - split; [intros [e He]; discriminate | intros H; inversion H].
  - pose proof (layer_nodes_null_styler name (features layer)) as Hl.
    destruct (layer_nodes language quantize None name (features layer)) as [ns|e] eqn:E;
      simpl.
    + destruct Hl as [Hf ->]. rewrite Exists_cons. simpl.
      destruct (loadLayers language quantize None vt) as [ls|e']; simpl.
      * split; [intros [e He]; discriminate|].
        intros [H|H]; [contradiction|]. apply IH in H as [e He]. discriminate.
      * split; [intros _; right; apply IH; eauto | eauto].
    + split; [intros _; left; exact Hl | eauto].
Qed.

End TileLoadProofs.

(** Claim C8.  A payload is decompressed before parsing exactly when its
    first two bytes are the gzip magic number 0x1f 0x8b; any other payload
    is handed to the parser as it is. *)
Theorem unzipIfNeeded_gzip_magic (gunzip : list byte -> result (list byte))
    (buffer : list byte) :
  (isGzipped buffer = true <-> take 2 buffer = [x1f; x8b]) /\
  unzipIfNeeded gunzip buffer =
    (if isGzipped buffer then gunzip buffer else Ok buffer).
Proof.
  split; [|reflexivity].
  unfold isGzipped, indexOf.
  destruct buffer as [|a [|b t]]; simpl.
  - split; discriminate.
  - rewrite andb_false_r. simpl. split; discriminate.
  - rewrite !andb_false_r. simpl.
    destruct (Byte.eqb x1f a) eqn:Ea; destruct (Byte.eqb x8b b) eqn:Eb; simpl.
    + apply Byte.byte_dec_bl in Ea, Eb. subst. split; reflexivity.
    + split; [discriminate|]. intros H. injection H as -> ->.
      cbv in Ea, Eb; discriminate.
    + split; [discriminate|]. intros H. injection H as -> ->.
      cbv in Ea, Eb; discriminate.
    + split; [discriminate|]. intros H. injection H as -> ->.
      cbv in Ea, Eb; discriminate.
Qed.

(** Claim C5.  Every StyledNode built by [_loadLayers] has a bounding
    box with [minX <= maxX] and [minY <= maxY] that contains every point of
    the ring it is taken over: the outer ring (ring 0) of a fill, the
    node's own ring otherwise.  The rings are those of
    [feature.loadGeometry()], which never yields an empty ring. *)
Theorem loadLayers_bbox (language : string) (quantize : option string -> Z)
    (styler : option Styler) (vt : VectorTile) (out : list (string * LoadedLayer)) :
  Forall (fun nl => Forall (fun f => Forall (fun r => r <> []) (geometry f))
                           (features nl.2)) vt ->
  loadLayers language quantize styler vt = Ok out ->
  Forall (fun nl => Forall (fun n =>
     bbox_ok n /\
     (if String.eqb (stype (node_style n)) "fill"
      then exists rs, node_points n = Rings rs
      else exists r, node_points n = Ring r)) (l_tree nl.2)) out.
Proof.
  intros Hvt H. eapply loadLayers_Forall; [|exact H].
  eapply Forall_impl; [exact Hvt|]. intros [name layer] Hl. simpl in *.
  eapply Forall_impl; [exact Hl|]. intros f Hf ns Hp.
  pose proof (process_feature_shape language quantize styler name f ns Hf Hp) as Hs.
  destruct styler as [get|]; [|contradiction].
  destruct (get name (set_type f)) as [st|]; [|subst; constructor].
  destruct Hs as (c & _ & Hns).
  eapply Forall_impl; [exact Hns|]. intros n (Hb & Hst & _ & _ & Hpts).
  split; [exact Hb|]. rewrite Hst.
  destruct (String.eqb (stype st) "fill"); eauto.
Qed.

Lemma loadLayers_bbox_witness :
  exists out,
  loadLayers "en" (fun _ => 21) (Some fill_styler) sample_vt = Ok out /\
  Forall (fun nl => Forall (fun n =>
     bbox_ok n /\
     (if String.eqb (stype (node_style n)) "fill"
      then exists rs, node_points n = Rings rs
      else exists r, node_points n = Ring r)) (l_tree nl.2)) out.
Proof.
  destruct (loadLayers "en" (fun _ => 21) (Some fill_styler) sample_vt) as [out|e] eqn:E.
  - exists out. split; [reflexivity|].
    apply (loadLayers_bbox "en" (fun _ => 21) (Some fill_styler) sample_vt out); [|exact E].
    repeat constructor; discriminate.
  - vm_compute in E. discriminate.
Defined.

Lemma resolve_color_claimed (p : gmap string PaintVal) (c : option string) :
  resolve_color p = Ok c -> claimed_color p = Some c.
Proof.
  unfold resolve_color, claimed_color, paint_or.
  generalize (p !! "line-color") (p !! "fill-color") (p !! "text-color").
  intros a b t.
  destruct (paint_truthy a) eqn:Ea; simpl; rewrite ?Ea;
  [|destruct (paint_truthy b) eqn:Eb; simpl; rewrite ?Eb];
  [destruct a as [[s|[|[z c0] stops]]|] | destruct b as [[s|[|[z c0] stops]]|]
  | destruct t as [[s|[|[z c0] stops]]|]];
  simpl; intros H; inversion H; reflexivity.
Qed.

(** Claim C6.  The colour of every node of a styled feature is the
    quantisation of [paint['line-color']], falling back to
    [paint['fill-color']], then [paint['text-color']] (fallback on an
    unset value), where a stops structure gives its first stop's value;
    no zoom enters the computation.  With
    [{stops: [[0, "#ff0000"], [5, "#00ff00"]]}] the colour is ["#ff0000"]. *)
Theorem feature_color_resolution (language : string) (quantize : option string -> Z)
    (get : Styler) (lyr : string) (f : Feature) (st : Style) (ns : list Node) :
  get lyr (set_type f) = Some st ->
  process_feature language quantize (Some get) lyr f = Ok ns ->
  (exists c, claimed_color (paint st) = Some c /\
             resolve_color (paint st) = Ok c /\
             Forall (fun n => node_color n = quantize c) ns) /\
  resolve_color {[ "line-color" := PaintStops [(0, "#ff0000"); (5, "#00ff00")] ]}
    = Ok (Some "#ff0000").
Proof.
  intros Hg Hp. split; [|reflexivity].
  unfold process_feature in Hp. rewrite Hg in Hp.
  apply build_nodes_fields in Hp as (c & Hc & Hns).
  exists c. split; [|split; [exact Hc|]].
  - exact (resolve_color_claimed (paint st) c Hc).
  - eapply Forall_impl; [exact Hns|]. intros n (_ & _ & Hcol). exact Hcol.
Qed.

Lemma feature_color_resolution_witness :
  exists st ns,
  stops_styler "road" (set_type road_feature) = Some st /\
  process_feature "en" (fun _ => 196) (Some stops_styler) "road" road_feature = Ok ns /\
  (exists c, claimed_color (paint st) = Some c /\ resolve_color (paint st) = Ok c /\
             Forall (fun n => node_color n = 196) ns).
Proof.
  destruct (process_feature "en" (fun _ => 196) (Some stops_styler) "road" road_feature)
    as [ns|e] eqn:E; [|vm_compute in E; discriminate].
  eexists _, ns. split; [reflexivity|]. split; [reflexivity|].
  exact (proj1 (feature_color_resolution "en" (fun _ => 196) stops_styler "road"
                  road_feature _ ns eq_refl E)).
Defined.

Lemma label_of_claimed (language : string) (st : Style) (props : gmap string PropVal) :
  label_of language st props = claimed_label language (stype st) props.
Proof.
  unfold label_of, claimed_label. destruct (String.eqb (stype st) "symbol"); [|reflexivity].
  simpl. unfold prop_or.
  generalize (props !! ("name_" +:+ language)) (props !! "name_en")
             (props !! "name") (props !! "house_num").
  intros a b c d.
  destruct (prop_truthy a) eqn:Ea; rewrite ?Ea; [reflexivity|].
  destruct (prop_truthy b) eqn:Eb; rewrite ?Eb; [reflexivity|].
  reflexivity.
Qed.

(** Claim C7.  Every node of a styled feature carries the label resolved
    only for [symbol] styles, by the fallback [name_<language>], [name_en],
    [name], [house_num], absent (a fallback on an unset value); a symbol
    feature whose only name is [name = "Berlin"] is labelled "Berlin",
    whatever the configured language. *)
Theorem feature_label_resolution (language : string) (quantize : option string -> Z)
    (get : Styler) (lyr : string) (f : Feature) (st : Style) (ns : list Node) :
  get lyr (set_type f) = Some st ->
  process_feature language quantize (Some get) lyr f = Ok ns ->
  Forall (fun n => node_label n =
            claimed_label language (stype st) (properties (set_type f))) ns /\
  label_of language (mkStyle "symbol" ∅) (properties (set_type berlin))
    = Some (PStr "Berlin").
Proof.
  intros Hg Hp. split.
  - unfold process_feature in Hp. rewrite Hg in Hp.
    apply build_nodes_fields in Hp as (c & _ & Hns).
    eapply Forall_impl; [exact Hns|]. intros n (_ & Hl & _).
    rewrite Hl. apply label_of_claimed.
  - unfold label_of, set_type, berlin. simpl.
    rewrite lookup_insert_ne by (simpl; discriminate).
    rewrite lookup_singleton_ne by (simpl; discriminate).
    reflexivity.
Qed.

Lemma feature_label_resolution_witness :
  exists st ns,
  symbol_styler "place_label" (set_type berlin) = Some st /\
  process_feature "de" (fun _ => 16) (Some symbol_styler) "place_label" berlin = Ok ns /\
  Forall (fun n => node_label n =
            claimed_label "de" (stype st) (properties (set_type berlin))) ns /\
  map node_label ns = [Some (PStr "Berlin")].
Proof.
  destruct (process_feature "de" (fun _ => 16) (Some symbol_styler) "place_label" berlin)
    as [ns|e] eqn:E; [|vm_compute in E; discriminate].
  eexists _, ns. split; [reflexivity|]. split; [reflexivity|]. split.
  - exact (proj1 (feature_label_resolution "de" (fun _ => 16) symbol_styler "place_label"
                    berlin _ ns eq_refl E)).
  - vm_compute in E. injection E as <-. reflexivity.
Defined.

(** Claim C10.  With a null styler, loading a payload that decodes to
    layers containing at least one feature rejects (the style is
    dereferenced unconditionally), and it succeeds only when every layer
    is empty. *)
Theorem tile_load_null_styler (language : string) (quantize : option string -> Z)
    (gunzip : list byte -> result (list byte)) (decode : list byte -> result VectorTile)
    (buffer b : list byte) (vt : VectorTile) :
  unzipIfNeeded gunzip buffer = Ok b ->
  decode b = Ok vt ->
  (exists e, load language quantize gunzip decode None buffer = Err e) <->
  Exists (fun nl => features nl.2 <> []) vt.
Proof.
  intros Hu Hd. unfold load. rewrite Hu. simpl. rewrite Hd. simpl.
  apply loadLayers_null_styler.
Qed.

Lemma tile_load_null_styler_witness :
  (exists e, load "en" (fun _ => 0) (fun b => Ok b) (fun _ => Ok sample_vt) None [x1a; x02]
               = Err e) /\
  Exists (fun nl => features nl.2 <> []) sample_vt.
Proof.
  assert (Hx : Exists (fun nl => features nl.2 <> []) sample_vt)
    by (constructor; simpl; discriminate).
  split; [|exact Hx].
  exact (proj2 (tile_load_null_styler "en" (fun _ => 0) (fun b => Ok b) (fun _ => Ok sample_vt)
                  [x1a; x02] [x1a; x02] sample_vt eq_refl eq_refl) Hx).
Defined.

End TileProofs.

Module TileSourceHTTPProofs.
Import Tile TileSourceHTTP.

(** With persistence enabled, the bytes read from disk, or else the
    fetched bytes, are what [_createTile] receives. *)
Lemma getHTTP_persistence_on (cacheDir : string) (onDisk : option (list byte))
    (response : string -> list byte) (src : string) (z x y : Z) :
  passed (getHTTP true cacheDir onDisk response src z x y) =
    match onDisk with
    | Some b => Buffer b
    | None => Buffer (response (tile_url src z x y))
    end.
Proof. destruct onDisk; reflexivity. Qed.

(** Claim C2 (code_bug).  With persistence disabled, [_getHTTP] fetches
    [{source}{z}/{x}/{y}.pbf], but the [.then] callback only returns the
    buffer inside its [if (config.persistDownloadedTiles)], so
    [_createTile] receives [undefined] instead of the fetched bytes and
    [tile.load] rejects. *)
Theorem getHTTP_persistence_off_drops_bytes (cacheDir : string)
    (onDisk : option (list byte)) (response : string -> list byte)
    (src : string) (z x y : Z) (language : string) (quantize : option string -> Z)
    (gunzip : list byte -> result (list byte)) (decode : list byte -> result VectorTile)
    (styler : option Styler) :
  let r := getHTTP false cacheDir onDisk response src z x y in
  fetched_url r = Some (tile_url src z x y) /\
  passed r = Undefined /\
  passed r <> Buffer (response (tile_url src z x y)) /\
  exists e, load_value language quantize gunzip decode styler (passed r) = Err e.
Proof.
  simpl. destruct onDisk; simpl; (split; [reflexivity|]); (split; [reflexivity|]);
  (split; [discriminate | eexists; reflexivity]).
Qed.

End TileSourceHTTPProofs.

Module LabelBufferProofs.
Import LabelBuffer.

Section Placement.

Variable F : Type.
Variable stringWidth : string -> nat.

Lemma collides_false (tree : list (Entry F)) (r : Rect) :
  collides F tree r = false -> Forall (fun e => intersects r e.1 = false) tree.
Proof.
  induction tree as [|e tree IH]; simpl; intros H; [constructor|].
  apply orb_false_iff in H as [H1 H2]. constructor; auto.
Qed.

Lemma writeIfPossible_step (tree : list (Entry F)) (c : Call F) :
  match writeIfPossible F stringWidth tree c with
  | (true, tree') => tree' = (padded_area F stringWidth c, feature F c) :: tree /\
                     Forall (fun e => intersects (test_area F stringWidth c) e.1 = false) tree
  | (false, tree') => tree' = tree
  end.
Proof.
  unfold writeIfPossible, padded_area, test_area, hasSpace.
  destruct (project (px F c) (py F c)) as [x y].
  destruct (collides F tree (calculateArea stringWidth (text F c) x y 0)) eqn:E;
    simpl; [reflexivity|].
  split; [reflexivity|]. apply collides_false, E.
Qed.

Lemma run_invariant (calls : list (Call F)) :
  forall (tree : list (Entry F)) (placed : list (Call F)),
  tree = map (fun a => (padded_area F stringWidth a, feature F a)) placed ->
  separated F stringWidth placed ->
  let '(tree', placed') := run F stringWidth tree placed calls in
  tree' = map (fun a => (padded_area F stringWidth a, feature F a)) placed' /\
  separated F stringWidth placed'.
Proof.
  induction calls as [|c rest IH]; intros tree placed Ht Hs; simpl; [auto|].
  pose proof (writeIfPossible_step tree c) as Hstep.
  destruct (writeIfPossible F stringWidth tree c) as [[|] tree'].
  - destruct Hstep as [-> Hf]. apply IH.
    + simpl. rewrite Ht. reflexivity.
    + simpl. split; [|exact Hs]. rewrite Ht in Hf.
      apply Forall_map in Hf. exact Hf.
  - subst tree'. apply IH; assumption.
Qed.

End Placement.

(** Claim C3 (amended).  A call that returns [false] leaves the index
    unchanged.  After [clear()], along any sequence of calls the index
    holds exactly the padded footprints of the successful placements, and
    each successful placement's unpadded footprint (the area [_hasSpace]
    tests: no margin) is disjoint from the padded footprint of every
    earlier successful placement. *)
Theorem label_placement_separated (F : Type) (stringWidth : string -> nat)
    (calls : list (Call F)) :
  (forall (tree tree' : list (Entry F)) (c : Call F),
     writeIfPossible F stringWidth tree c = (false, tree') -> tree' = tree) /\
  (let '(tree, placed) := run F stringWidth [] [] calls in
   tree = map (fun a => (padded_area F stringWidth a, feature F a)) placed /\
   separated F stringWidth placed).
Proof.
  split.
  - intros tree tree' c H. pose proof (writeIfPossible_step F stringWidth tree c) as Hs.
    rewrite H in Hs. exact Hs.
  - apply (run_invariant F stringWidth calls [] []); simpl; auto.
Qed.

(** Claim C3 as stated fails: two labels "a" at pixels (0, 0) and
    (14, 0), default margin 5, are both placed, and their padded
    footprints [-5, 6] x [-5/2, 5/2] and [2, 13] x [-5/2, 5/2] overlap. *)
Lemma label_padded_overlap_counterexample :
  run unit String.length [] [] [cx_label_a; cx_label_b] =
    ([(padded_area unit String.length cx_label_b, tt);
      (padded_area unit String.length cx_label_a, tt)], [cx_label_b; cx_label_a]) /\
  intersects (padded_area unit String.length cx_label_b)
             (padded_area unit String.length cx_label_a) = true.
Proof. split; reflexivity. Qed.

End LabelBufferProofs.

Module BrailleBufferProofs.
Import BrailleBuffer.

(** Claim C4 (code_bug).  For the one-dot mask 1 the table holds the
    left half block, although the upper half block, declared first, has
    the same maximal overlap (1 bit); the reduce without an initial value
    never scores [masks[0]] (the upper half block), so it cannot win. *)
Theorem mapBraille_first_candidate_skipped :
  nth 1 asciiToBraille Blank = LeftHalf /\
  claimed_choice (braille_of 1) = Some UpperHalf /\
  claimed_choice 1 = Some UpperHalf /\
  population (Z.land (1+2+16+32) (braille_of 1)) = 1 /\
  population (Z.land (1+2+4+8) (braille_of 1)) = 1.
Proof. vm_compute. repeat split. Qed.

Lemma toInt32_small (v : Z) : 0 <= v < 2 ^ 31 -> toInt32 v = v.
Proof.
  intros H. unfold toInt32. rewrite Z.mod_small by lia.
  destruct (v <? 2 ^ 31) eqn:E; [reflexivity|]. apply Z.ltb_ge in E. lia.
Qed.

Lemma shr_small (v k : Z) : 0 <= v < 2 ^ 31 -> 0 <= k -> shr v k = v / 2 ^ k.
Proof. intros H Hk. unfold shr. rewrite toInt32_small by exact H. apply Z.shiftr_div_pow2, Hk. Qed.

(** Claim C9 (amended).  An out-of-bounds (x, y) leaves the canvas
    unchanged under [setPixel], [unsetPixel], [setChar] and
    [setBackground], with nothing thrown; on a canvas whose width is even
    and whose height is a multiple of 4 (both below 2^31, as the viewer
    sizes it), an in-bounds (x, y) has its cell index
    [(x>>1) + (width>>1)*(y>>2)] in [[0, width*height/8)]. *)
Theorem draw_clipping_and_index_range (c : Canvas) (x y color : Z) (ch : string) :
  (in_bounds c x y = false ->
   setPixel c x y color = c /\ unsetPixel c x y = c /\
   setChar c ch x y color = c /\ setBackground c x y color = c) /\
  (width c mod 2 = 0 -> height c mod 4 = 0 ->
   width c < 2 ^ 31 -> height c < 2 ^ 31 ->
   in_bounds c x y = true ->
   0 <= project c x y /\ 8 * project c x y < width c * height c).
Proof.
  split.
  - intros E. unfold setPixel, unsetPixel, setChar, setBackground. rewrite E. auto.
  - intros Hw Hh Hw' Hh' E.
    unfold in_bounds in E. rewrite !andb_true_iff, !Z.leb_le, !Z.ltb_lt in E.
    destruct E as [[[Hx0 Hx] Hy0] Hy].
    unfold project. rewrite !shr_small by lia.
    change (2 ^ 1) with 2. change (2 ^ 2) with 4.
    set (w := width c) in *. set (h := height c) in *.
    pose proof (Z.div_mod x 2 ltac:(lia)). pose proof (Z.mod_pos_bound x 2 ltac:(lia)).
    pose proof (Z.div_mod y 4 ltac:(lia)). pose proof (Z.mod_pos_bound y 4 ltac:(lia)).
    pose proof (Z.div_mod w 2 ltac:(lia)). pose proof (Z.div_mod h 4 ltac:(lia)).
    set (qx := x / 2) in *. set (qy := y / 4) in *.
    set (a := w / 2) in *. set (b := h / 4) in *.
    assert (qx <= a - 1) by lia. assert (qy <= b - 1) by lia.
    assert (0 <= qx) by lia. assert (0 <= qy) by lia.
    assert (a * qy <= a * (b - 1)) by (apply Z.mul_le_mono_nonneg_l; lia).
    split; nia.
Qed.

Lemma draw_clipping_and_index_range_witness :
  let c := create 8 8 in
  width c mod 2 = 0 /\ height c mod 4 = 0 /\ width c < 2 ^ 31 /\ height c < 2 ^ 31 /\
  in_bounds c 3 5 = true /\ 0 <= project c 3 5 /\ 8 * project c 3 5 < width c * height c /\
  in_bounds c 8 5 = false /\ setPixel c 8 5 1 = c.
Proof.
  pose proof (draw_clipping_and_index_range (create 8 8) 3 5 1 "x") as [_ H].
  pose proof (draw_clipping_and_index_range (create 8 8) 8 5 1 "x") as [H' _].
  specialize (H eq_refl eq_refl eq_refl eq_refl eq_refl).
  specialize (H' eq_refl).
  simpl. repeat split; try reflexivity; try apply H; apply H'.
Defined.

(** Claim C9 as stated fails: on a 4x1 canvas the in-bounds pixel
    (3, 0) has cell index 1, outside [[0, 4*1/8)]. *)
Lemma draw_index_range_counterexample :
  in_bounds (create 4 1) 3 0 = true /\ project (create 4 1) 3 0 = 1 /\
  ~ (8 * project (create 4 1) 3 0 < 4 * 1).
Proof. vm_compute. split; [reflexivity|]. split; [reflexivity|]. discriminate. Qed.

End BrailleBufferProofs.

Module TileSourceRunProofs.
Import TileSource TileSourceRun.

Lemma app_nil (t : string) : "" +:+ t = t.
Proof. reflexivity. Qed.

Lemma app_cons (a : ascii) (s t : string) : String a s +:+ t = String a (s +:+ t).
Proof. reflexivity. Qed.

Lemma string_app_nil_r (s : string) : s +:+ "" = s.
Proof. induction s; rewrite ?app_cons, ?app_nil; congruence. Qed.

Lemma append_assoc' (a b c : string) : (a +:+ b) +:+ c = a +:+ (b +:+ c).
Proof. induction a; rewrite ?app_cons, ?app_nil; congruence. Qed.

Lemma all_digits_app (a b : string) : all_digits (a +:+ b) = all_digits a && all_digits b.
Proof. induction a; rewrite ?app_cons, ?app_nil; simpl; [reflexivity|]. rewrite IHa, andb_assoc. reflexivity. Qed.

Lemma pretty_N_go_digits (x : N) : forall s, exists t,
  pretty_N_go x s = t +:+ s /\ all_digits t = true /\ ((0 < x)%N -> t <> "").
Proof.
  induction (N.lt_wf_0 x) as [x _ IH]; intros s.
  destruct (decide (x = 0%N)) as [->|Hx].
  - exists "". rewrite pretty_N_go_0. split; [reflexivity|]. split; [reflexivity|]. lia.
  - rewrite pretty_N_go_step by lia.
    destruct (IH (x `div` 10)%N ltac:(apply N.div_lt; lia)
                 (String (pretty_N_char (x `mod` 10)) s)) as (t & Ht & Hd & _).
    exists (t +:+ String (pretty_N_char (x `mod` 10)) "").
    rewrite append_assoc', Ht. split; [reflexivity|]. split.
    + rewrite all_digits_app, Hd. simpl.
      unfold pretty_N_char. by repeat case_match.
    + intros _. destruct t; rewrite ?app_nil, ?app_cons; discriminate.
Qed.

Lemma pretty_N_shape (n : N) : all_digits (pretty n) = true /\ pretty n <> "".
Proof.
  unfold pretty, pretty_N. case_decide as Hn; [split; [reflexivity|discriminate]|].
  destruct (pretty_N_go_digits n "") as (t & Ht & Hd & Hne).
  rewrite Ht, string_app_nil_r. split; [exact Hd|]. apply Hne. lia.
Qed.

Lemma pretty_Z_shape (z : Z) : exists d, all_digits d = true /\ d <> "" /\
  (pretty z = d \/ pretty z = String "-" d).
Proof.
  destruct z as [|p|p].
  - exists "0". split; [reflexivity|]. split; [discriminate|]. left; reflexivity.
  - destruct (pretty_N_shape (Npos p)) as [Hd Hn]. exists (pretty (Npos p)).
    split; [exact Hd|]. split; [exact Hn|]. left; reflexivity.
  - destruct (pretty_N_shape (Npos p)) as [Hd Hn]. exists (pretty (Npos p)).
    split; [exact Hd|]. split; [exact Hn|]. right; reflexivity.
Qed.

Lemma digits_sep (c : ascii) (d : string) : forall d' r r',
  is_digit c = false -> all_digits d = true -> all_digits d' = true ->
  d +:+ String c r = d' +:+ String c r' -> d = d' /\ r = r'.
Proof.
  induction d as [|a d IH]; intros [|a' d'] r r' Hc Hd Hd' H;
    rewrite ?app_nil, ?app_cons in H; simpl in Hd, Hd'.
  - injection H as <-. auto.
  - injection H as -> _. apply andb_true_iff in Hd' as [Ha _]. congruence.
  - injection H as -> _. apply andb_true_iff in Hd as [Ha _]. congruence.
  - injection H as -> H. apply andb_true_iff in Hd as [_ Hd].
    apply andb_true_iff in Hd' as [_ Hd'].
    destruct (IH d' r r' Hc Hd Hd' H) as [-> ->]. auto.
Qed.

Lemma pretty_sep (c : ascii) (z z' : Z) (r r' : string) :
  is_digit c = false ->
  pretty z +:+ String c r = pretty z' +:+ String c r' -> z = z' /\ r = r'.
Proof.
  intros Hc H.
  destruct (pretty_Z_shape z) as (d & Hd & Hne & Hz).
  destruct (pretty_Z_shape z') as (d' & Hd' & Hne' & Hz').
  assert (Hs : pretty z = pretty z' /\ r = r'); [|split; [apply (inj pretty), Hs | apply Hs]].
  destruct Hz as [Hz|Hz]; destruct Hz' as [Hz'|Hz']; rewrite Hz, Hz' in *;
    rewrite ?app_cons in H.
  - destruct (digits_sep c d d' r r' Hc Hd Hd' H) as [-> ->]. auto.
  - destruct d as [|a d]; [contradiction|]. rewrite app_cons in H.
    injection H as Ha _. subst a. discriminate Hd.
  - destruct d' as [|a d']; [contradiction|]. rewrite app_cons in H.
    injection H as Ha _. subst a. discriminate Hd'.
  - injection H as H. destruct (digits_sep c d d' r r' Hc Hd Hd' H) as [-> ->]. auto.
Qed.

Lemma key_of_injective (z x y z' x' y' : Z) :
  key_of z x y = key_of z' x' y' -> z = z' /\ x = x' /\ y = y'.
Proof.
  unfold key_of. rewrite !app_cons, !app_nil. intros H.
  apply pretty_sep in H as [-> H]; [|reflexivity].
  apply pretty_sep in H as [-> H]; [|reflexivity].
  apply (inj pretty) in H. auto.
Qed.







(** The cache key [`${z}-${x}-${y}`] determines the tile: two
    coordinate triples with the same key are equal, also when
    coordinates are negative. *)
Theorem key_of_inj (z x y z' x' y' : Z) :
  key_of z x y = key_of z' x' y' -> z = z' /\ x = x' /\ y = y'.
Proof. apply key_of_injective. Qed.

Lemma key_of_inj_witness :
  key_of 3 (-1) 2 = key_of 3 (-1) 2 /\ (3 = 3 /\ -1 = -1 /\ 2 = 2).
Proof. split; [reflexivity|]. exact (key_of_inj 3 (-1) 2 3 (-1) 2 eq_refl). Defined.

End TileSourceRunProofs.

Module TileExtraProofs.
Import Tile TileCount.

Lemma fold_bounds_attained (r : list point) :
  forall mnx mxx mny mxy a b c d,
  foldl bounds_step (mnx, mxx, mny, mxy) r = (a, b, c, d) ->
  (a = mnx \/ exists p, p ∈ r /\ p.1 = a) /\ (b = mxx \/ exists p, p ∈ r /\ p.1 = b) /\
  (c = mny \/ exists p, p ∈ r /\ p.2 = c) /\ (d = mxy \/ exists p, p ∈ r /\ p.2 = d).
Proof.
  induction r as [|[px py] r IH]; intros mnx mxx mny mxy a b c d H; simpl in H.
  - injection H as <- <- <- <-. auto.
  - destruct (IH _ _ _ _ _ _ _ _ H) as (H1 & H2 & H3 & H4).
    repeat split;
    [destruct H1 as [H1|(p & Hp & H1)]; [destruct (px <? mnx); [right; exists (px, py); split; [left|auto]|left; auto]|right; exists p; split; [right; exact Hp|auto]]
    |destruct H2 as [H2|(p & Hp & H2)]; [destruct (mxx <? px); [right; exists (px, py); split; [left|auto]|left; auto]|right; exists p; split; [right; exact Hp|auto]]
    |destruct H3 as [H3|(p & Hp & H3)]; [destruct (py <? mny); [right; exists (px, py); split; [left|auto]|left; auto]|right; exists p; split; [right; exact Hp|auto]]
    |destruct H4 as [H4|(p & Hp & H4)]; [destruct (mxy <? py); [right; exists (px, py); split; [left|auto]|left; auto]|right; exists p; split; [right; exact Hp|auto]]].
Qed.

(** [_addBoundaries] on a non-empty ring whose coordinates lie within
    +/-2e307 gives a tight box: minX, maxX, minY and maxY are each a
    coordinate of a point of the ring. *)
Theorem addBoundaries_tight (lyr : string) (st : Style) (label sort : option PropVal)
    (pts : NodePoints) (color : Z) (n : Node) :
  bbox_ring pts <> [] ->
  Forall (fun p => - big <= p.1 <= big /\ - big <= p.2 <= big) (bbox_ring pts) ->
  addBoundaries lyr st label sort pts color = Ok n ->
  (exists p, p ∈ bbox_ring pts /\ p.1 = minX n) /\
  (exists p, p ∈ bbox_ring pts /\ p.1 = maxX n) /\
  (exists p, p ∈ bbox_ring pts /\ p.2 = minY n) /\
  (exists p, p ∈ bbox_ring pts /\ p.2 = maxY n).
Proof.
  intros Hne Hbig H. unfold addBoundaries in H.
  assert (Hr : (match pts with Rings (r0 :: _) => Ok r0
                | Rings [] => Err (TypeError "points is not iterable")
                | Ring r0 => Ok r0 end) = Ok (bbox_ring pts)).
  { destruct pts as [[|r0 rs]|r0]; simpl in *; [contradiction|reflexivity|reflexivity]. }
  rewrite Hr in H. simpl in H. unfold ring_bounds in H.
  destruct (foldl bounds_step (big, - big, big, - big) (bbox_ring pts)) as [[[a b] c] d] eqn:Hf.
  injection H as <-. simpl.
  destruct (TileProofs.fold_bounds _ _ _ _ _ _ _ _ _ Hf) as (_ & _ & _ & _ & Hin).
  destruct (fold_bounds_attained _ _ _ _ _ _ _ _ _ Hf) as (H1 & H2 & H3 & H4).
  destruct (bbox_ring pts) as [|p0 r] eqn:Er; [contradiction|].
  inversion Hin as [|? ? Hp0 _]; subst. inversion Hbig as [|? ? Hb0 _]; subst.
  repeat split;
  [destruct H1 as [H1|H1]; [exists p0; split; [left|lia]|exact H1]
  |destruct H2 as [H2|H2]; [exists p0; split; [left|lia]|exact H2]
  |destruct H3 as [H3|H3]; [exists p0; split; [left|lia]|exact H3]
  |destruct H4 as [H4|H4]; [exists p0; split; [left|lia]|exact H4]].
Qed.

Lemma addBoundaries_tight_witness :
  exists n,
  bbox_ring (Ring [(3, 4); (-1, 7); (2, 2)]) <> [] /\
  addBoundaries "road" (mkStyle "line" ∅) None None (Ring [(3, 4); (-1, 7); (2, 2)]) 0 = Ok n /\
  (exists p, p ∈ bbox_ring (Ring [(3, 4); (-1, 7); (2, 2)]) /\ p.1 = minX n) /\
  (exists p, p ∈ bbox_ring (Ring [(3, 4); (-1, 7); (2, 2)]) /\ p.1 = maxX n) /\
  (exists p, p ∈ bbox_ring (Ring [(3, 4); (-1, 7); (2, 2)]) /\ p.2 = minY n) /\
  (exists p, p ∈ bbox_ring (Ring [(3, 4); (-1, 7); (2, 2)]) /\ p.2 = maxY n).
Proof.
  eexists. split; [discriminate|]. split; [reflexivity|].
  apply (addBoundaries_tight "road" (mkStyle "line" ∅) None None
           (Ring [(3, 4); (-1, 7); (2, 2)]) 0).
  - discriminate.
  - unfold big. repeat constructor; simpl; lia.
  - reflexivity.
Defined.


Lemma addBoundaries_node_layer (lyr : string) (st : Style) (label sort : option PropVal)
    (pts : NodePoints) (color : Z) (n : Node) :
  addBoundaries lyr st label sort pts color = Ok n -> node_layer n = lyr.
Proof.
  unfold addBoundaries. intros H. apply TileProofs.bind_Ok in H as (r & _ & H).
  destruct (ring_bounds r) as [[[a b] c] d]. injection H as <-. reflexivity.
Qed.

Lemma mapM_length {A B} (f : A -> result B) (l : list A) (ys : list B) :
  mapM f l = Ok ys -> length ys = length l.
Proof.
  revert ys. induction l as [|a l IH]; intros ys H; simpl in H.
  - injection H as <-. reflexivity.
  - apply TileProofs.bind_Ok in H as (b & _ & H). apply TileProofs.bind_Ok in H as (bs & Hbs & H).
    injection H as <-. simpl. f_equal. apply IH, Hbs.
Qed.

Section Layers.
Variable language : string.
Variable quantize : option string -> Z.

Lemma process_feature_count (get : Styler) (lyr : string) (f : Feature) (ns : list Node) :
  process_feature language quantize (Some get) lyr f = Ok ns ->
  length ns = feature_node_count get lyr f /\ Forall (fun n => node_layer n = lyr) ns.
Proof.
  unfold process_feature, feature_node_count. destruct (get lyr (set_type f)) as [st|].
  2:{ intros H. injection H as <-. split; [reflexivity|constructor]. }
  unfold build_nodes. intros H. apply TileProofs.bind_Ok in H as (c & _ & H).
  destruct (String.eqb (stype st) "fill").
  - apply TileProofs.bind_Ok in H as (n & Hn & H). injection H as <-.
    split; [reflexivity|]. constructor; [exact (addBoundaries_node_layer _ _ _ _ _ _ _ Hn)|constructor].
  - split.
    + rewrite (mapM_length _ _ _ H). reflexivity.
    + eapply TileProofs.mapM_Forall; [|exact H].
      apply Forall_forall. intros r _ n Hn. exact (addBoundaries_node_layer _ _ _ _ _ _ _ Hn).
Qed.

Lemma layer_nodes_count (get : Styler) (lyr : string) (fs : list Feature) (ns : list Node) :
  layer_nodes language quantize (Some get) lyr fs = Ok ns ->
  length ns = sum_list_with (feature_node_count get lyr) fs /\
  Forall (fun n => node_layer n = lyr) ns.
Proof.
  revert ns. induction fs as [|f fs IH]; intros ns H; simpl in H.
  - injection H as <-. split; [reflexivity|constructor].
  - apply TileProofs.bind_Ok in H as (a & Ha & H). apply TileProofs.bind_Ok in H as (b & Hb & H).
    injection H as <-. destruct (process_feature_count get lyr f a Ha) as [La Fa].
    destruct (IH b Hb) as [Lb Fb]. simpl. rewrite length_app, La, Lb.
    split; [reflexivity|]. apply Forall_app; auto.
Qed.

End Layers.

(** [_loadLayers] with a styler keeps the tile's layers in order with
    their extents, and each layer's tree holds one node for each feature
    whose style has type [fill], one per geometry ring for each other
    styled feature, none for an unstyled one, all tagged with the
    layer's name. *)
Theorem loadLayers_layers (language : string) (quantize : option string -> Z)
    (get : Styler) (vt : VectorTile) (out : list (string * LoadedLayer)) :
  loadLayers language quantize (Some get) vt = Ok out ->
  map (fun nl => (nl.1, l_extent nl.2)) out = map (fun nl => (nl.1, extent nl.2)) vt /\
  Forall2 (fun nl lin =>
             length (l_tree nl.2) = sum_list_with (feature_node_count get lin.1) (features lin.2) /\
             Forall (fun n => node_layer n = nl.1) (l_tree nl.2)) out vt.
Proof.
  revert out. induction vt as [|[name layer] vt IH]; intros out H; simpl in H.
  - injection H as <-. split; [reflexivity|constructor].
  - apply TileProofs.bind_Ok in H as (a & Ha & H). apply TileProofs.bind_Ok in H as (b & Hb & H).
    injection H as <-. destruct (IH b Hb) as [Hm Hf].
    destruct (layer_nodes_count language quantize get name _ a Ha) as [La Fa].
    split; [simpl; f_equal; exact Hm|]. constructor; [simpl; auto|exact Hf].
Qed.

Lemma loadLayers_layers_witness :
  exists out,
  loadLayers "en" (fun _ => 21) (Some fill_styler) sample_vt = Ok out /\
  map (fun nl => (nl.1, l_extent nl.2)) out = map (fun nl => (nl.1, extent nl.2)) sample_vt /\
  Forall2 (fun nl lin =>
             length (l_tree nl.2) = sum_list_with (feature_node_count fill_styler lin.1) (features lin.2) /\
             Forall (fun n => node_layer n = nl.1) (l_tree nl.2)) out sample_vt.
Proof.
  destruct (loadLayers "en" (fun _ => 21) (Some fill_styler) sample_vt) as [out|e] eqn:E;
    [|vm_compute in E; discriminate].
  exists out. split; [reflexivity|].
  exact (loadLayers_layers "en" (fun _ => 21) fill_styler sample_vt out E).
Defined.

End TileExtraProofs.

Module TileSourceHTTPStoreProofs.
Import Tile TileSourceHTTP TileSourceHTTPStore.

Lemma persist_path_inj (d : string) (z x y z' x' y' : Z) :
  persist_path d z x y = persist_path d z' x' y' -> z = z' /\ x = x' /\ y = y'.
Proof.
  unfold persist_path. intros H. apply (inj (String.append d)) in H.
  rewrite !TileSourceRunProofs.app_cons, !TileSourceRunProofs.app_nil in H. injection H as H.
  apply TileSourceRunProofs.pretty_sep in H as [-> H]; [|reflexivity].
  apply TileSourceRunProofs.pretty_sep in H as [-> H]; [|reflexivity].
  apply TileSourceRunProofs.pretty_sep in H as [-> _]; [|reflexivity]. auto.
Qed.

(** With persistence on, a tile fetched once is written to its path;
    asking for it again reads those bytes back without a fetch and
    writes nothing; the other tiles' paths are untouched. *)
Theorem getHTTP_persisted_round_trip (cacheDir : string) (fs : gmap string (list byte))
    (response response' : string -> list byte) (src : string) (z x y : Z) :
  fs !! persist_path cacheDir z x y = None ->
  let '(fs1, r1) := getHTTP_fs true cacheDir fs response src z x y in
  let '(fs2, r2) := getHTTP_fs true cacheDir fs1 response' src z x y in
  fetched_url r1 = Some (tile_url src z x y) /\
  passed r1 = Buffer (response (tile_url src z x y)) /\
  fetched_url r2 = None /\ passed r2 = passed r1 /\ fs2 = fs1 /\
  (forall z' x' y', (z', x', y') <> (z, x, y) ->
     fs1 !! persist_path cacheDir z' x' y' = fs !! persist_path cacheDir z' x' y').
Proof.
  intros H. unfold getHTTP_fs at 1. rewrite H. simpl.
  unfold getHTTP_fs. rewrite lookup_insert_eq. simpl.
  split; [reflexivity|]. split; [reflexivity|]. split; [reflexivity|].
  split; [reflexivity|]. split; [reflexivity|].
  intros z' x' y' Hne. rewrite lookup_insert_ne; [reflexivity|].
  intros Heq. apply persist_path_inj in Heq as (-> & -> & ->). auto.
Qed.

Lemma getHTTP_persisted_round_trip_witness :
  (∅ : gmap string (list byte)) !! persist_path "/tmp/tiles" 2 1 (-1) = None /\
  let '(fs1, r1) := getHTTP_fs true "/tmp/tiles" ∅ (fun _ => [x01]) "http://t/" 2 1 (-1) in
  let '(fs2, r2) := getHTTP_fs true "/tmp/tiles" fs1 (fun _ => [x02]) "http://t/" 2 1 (-1) in
  fetched_url r1 = Some (tile_url "http://t/" 2 1 (-1)) /\
  passed r1 = Buffer [x01] /\
  fetched_url r2 = None /\ passed r2 = passed r1 /\ fs2 = fs1 /\
  (forall z' x' y', (z', x', y') <> (2, 1, -1) ->
     fs1 !! persist_path "/tmp/tiles" z' x' y' = (∅ : gmap string (list byte)) !! persist_path "/tmp/tiles" z' x' y').
Proof.
  split; [reflexivity|].
  exact (getHTTP_persisted_round_trip "/tmp/tiles" ∅ (fun _ => [x01]) (fun _ => [x02]) "http://t/" 2 1 (-1) eq_refl).
Defined.

End TileSourceHTTPStoreProofs.

Module LabelBufferExtraProofs.
Import LabelBuffer.

Section P.
Variable F : Type.
Variable stringWidth : string -> nat.

Lemma writeIfPossible_false (tree : list (Entry F)) (c : Call F) :
  collides F tree (test_area F stringWidth c) = true ->
  writeIfPossible F stringWidth tree c = (false, tree).
Proof.
  unfold writeIfPossible, test_area, hasSpace.
  destruct (project (px F c) (py F c)) as [x y]. intros H. rewrite H. reflexivity.
Qed.

Lemma writeIfPossible_false_inv (tree tree' : list (Entry F)) (c : Call F) :
  writeIfPossible F stringWidth tree c = (false, tree') ->
  collides F tree (test_area F stringWidth c) = true /\ tree' = tree.
Proof.
  unfold writeIfPossible, test_area, hasSpace.
  destruct (project (px F c) (py F c)) as [x y].
  destruct (collides F tree (calculateArea stringWidth (text F c) x y 0)); simpl;
    intros H; inversion H; auto.
Qed.

Lemma run_suffix (calls : list (Call F)) : forall tree placed,
  exists added, (run F stringWidth tree placed calls).1 = added ++ tree.
Proof.
  induction calls as [|c rest IH]; intros tree placed; simpl.
  - exists []. reflexivity.
  - pose proof (LabelBufferProofs.writeIfPossible_step F stringWidth tree c) as Hs.
    destruct (writeIfPossible F stringWidth tree c) as [[|] tree1].
    + destruct Hs as [-> _]. destruct (IH ((padded_area F stringWidth c, feature F c) :: tree) (c :: placed))
        as [added Ha]. rewrite Ha. exists (added ++ [(padded_area F stringWidth c, feature F c)]).
      rewrite <- app_assoc. reflexivity.
    + subst tree1. apply IH.
Qed.

Lemma collides_app (added tree : list (Entry F)) (r : Rect) :
  collides F tree r = true -> collides F (added ++ tree) r = true.
Proof. unfold collides. intros H. rewrite existsb_app. apply orb_true_iff. right. exact H. Qed.

End P.

(** A label [writeIfPossible] rejects stays rejected after any further
    sequence of placements. *)
Theorem rejection_persists (F : Type) (stringWidth : string -> nat)
    (tree : list (Entry F)) (placed : list (Call F)) (calls : list (Call F))
    (tree' : list (Entry F)) (placed' : list (Call F)) (c : Call F) :
  writeIfPossible F stringWidth tree c = (false, tree) ->
  run F stringWidth tree placed calls = (tree', placed') ->
  writeIfPossible F stringWidth tree' c = (false, tree').
Proof.
  intros Hf Hr. apply writeIfPossible_false_inv in Hf as [Hc _].
  destruct (run_suffix F stringWidth calls tree placed) as [added Ha].
  rewrite Hr in Ha. simpl in Ha. subst tree'.
  apply writeIfPossible_false, collides_app, Hc.
Qed.

Lemma rejection_persists_witness :
  writeIfPossible unit String.length [(padded_area unit String.length cx_label_a, tt)] cx_label_a
    = (false, [(padded_area unit String.length cx_label_a, tt)]) /\
  run unit String.length [(padded_area unit String.length cx_label_a, tt)] [cx_label_a] [cx_label_b]
    = ([(padded_area unit String.length cx_label_b, tt); (padded_area unit String.length cx_label_a, tt)],
       [cx_label_b; cx_label_a]) /\
  writeIfPossible unit String.length
    [(padded_area unit String.length cx_label_b, tt); (padded_area unit String.length cx_label_a, tt)]
    cx_label_a =
  (false, [(padded_area unit String.length cx_label_b, tt); (padded_area unit String.length cx_label_a, tt)]).
Proof.
  split; [reflexivity|]. split; [reflexivity|].
  apply (rejection_persists unit String.length [(padded_area unit String.length cx_label_a, tt)]
           [cx_label_a] [cx_label_b]) with (placed' := [cx_label_b; cx_label_a]); reflexivity.
Defined.

(** Once a label with a non-negative margin is placed, the same text
    at the same projected position is rejected. *)
Theorem label_not_placed_twice (F : Type) (stringWidth : string -> nat)
    (pre : list (Call F)) (tree : list (Entry F)) (placed : list (Call F)) (c c' : Call F) :
  run F stringWidth [] [] pre = (tree, placed) ->
  c ∈ placed ->
  (0 <= effective_margin (margin F c))%Q ->
  text F c' = text F c ->
  project (px F c') (py F c') = project (px F c) (py F c) ->
  writeIfPossible F stringWidth tree c' = (false, tree).
Proof.
  intros Hr Hin Hm Ht Hp.
  pose proof (LabelBufferProofs.run_invariant F stringWidth pre [] [] eq_refl I) as Hi.
  rewrite Hr in Hi. destruct Hi as [-> _].
  apply writeIfPossible_false. unfold collides. apply existsb_exists.
  exists (padded_area F stringWidth c, feature F c). split.
  - apply in_map_iff. exists c. split; [reflexivity|apply list_elem_of_In, Hin].
  - simpl. unfold test_area, padded_area. rewrite Hp, Ht.
    destruct (project (px F c) (py F c)) as [x y].
    unfold calculateArea, intersects. simpl.
    set (m := effective_margin (margin F c)) in *.
    set (w := inject_Z (Z.of_nat (stringWidth (text F c)))).
    assert (Hw : (0 <= w)%Q) by (unfold w; change 0%Q with (inject_Z 0); rewrite <- Zle_Qle; lia).
    rewrite !andb_true_iff, !Qle_bool_iff. repeat split. all: unfold Qdiv; change (Qinv 2) with (1#2)%Q; lra.
Qed.

Lemma label_not_placed_twice_witness :
  run unit String.length [] [] [cx_label_a] = ([(padded_area unit String.length cx_label_a, tt)], [cx_label_a]) /\
  writeIfPossible unit String.length [(padded_area unit String.length cx_label_a, tt)]
    (mkCall unit "a" 1 3 tt (Some 2%Q)) = (false, [(padded_area unit String.length cx_label_a, tt)]).
Proof.
  split; [reflexivity|].
  apply (label_not_placed_twice unit String.length [cx_label_a] _ [cx_label_a] cx_label_a).
  - reflexivity.
  - left.
  - simpl. lra.
  - reflexivity.
  - reflexivity.
Defined.

End LabelBufferExtraProofs.

Module BrailleCanvasProofs.
Import BrailleBuffer BrailleCanvas.



















Lemma buf_set_length (b : list Z) (i v : Z) : length (buf_set b i v) = length b.
Proof. unfold buf_set. destruct (_ && _); [apply length_insert|reflexivity]. Qed.







Lemma map_zero (l : list Z) : map (fun _ => 0) l = repeat 0 (length l).
Proof. induction l as [|a l IH]; simpl; [reflexivity|]. rewrite IH. reflexivity. Qed.

Lemma map_zero_set (b : list Z) (i v : Z) :
  map (fun _ => 0) (buf_set b i v) = map (fun _ => 0) b.
Proof. rewrite !map_zero, buf_set_length. reflexivity. Qed.



(** [clear] erases the effect of [setPixel], [unsetPixel], [setChar] and
    [setBackground]. *)
Theorem clear_forgets_drawing (c : Canvas) (x y color : Z) (ch : string) :
  clear (setPixel c x y color) = clear c /\ clear (unsetPixel c x y) = clear c /\
  clear (setChar c ch x y color) = clear c /\ clear (setBackground c x y color) = clear c.
Proof.
  unfold setPixel, unsetPixel, setChar, setBackground.
  destruct (in_bounds c x y); [|auto].
  unfold clear; simpl. rewrite !map_zero_set. auto.
Qed.






End BrailleCanvasProofs.

Module BrailleTextProofs.
Import BrailleBuffer BrailleCanvas.



Lemma Qfloor_unique (r : Q) (a : Z) :
  (inject_Z a <= r)%Q -> (r < inject_Z (a + 1))%Q -> Qfloor r = a.
Proof.
  intros H1 H2. pose proof (Qfloor_le r). pose proof (Qlt_floor r).
  destruct (Z.lt_trichotomy (Qfloor r) a) as [Hl|[He|Hl]]; [exfalso|exact He|exfalso].
  - assert (inject_Z (Qfloor r + 1) <= inject_Z a)%Q by (rewrite <- Zle_Qle; lia). lra.
  - assert (inject_Z (a + 1) <= inject_Z (Qfloor r))%Q by (rewrite <- Zle_Qle; lia). lra.
Qed.

Lemma Qfloor_add_int (q : Q) (z : Z) : Qfloor (q + inject_Z z) = Qfloor q + z.
Proof.
  apply Qfloor_unique; rewrite !inject_Z_plus.
  - pose proof (Qfloor_le q). lra.
  - pose proof (Qlt_floor q). rewrite inject_Z_plus in H. lra.
Qed.












End BrailleTextProofs.

Module BrailleFrameProofs.
Import BrailleBuffer BrailleCanvas.

Lemma fold_left_ext_in {A B : Type} (f g : A -> B -> A) (l : list B) (a : A) :
  (forall acc x, In x l -> f acc x = g acc x) -> fold_left f l a = fold_left g l a.
Proof.
  revert a. induction l as [|b l IH]; intros a H; simpl; [reflexivity|].
  rewrite H by (left; reflexivity). apply IH. intros acc x Hx. apply H. right. exact Hx.
Qed.

Lemma in_rows (c : Canvas) (y : Z) :
  In y (frame_rows c) -> 0 <= y /\ 4 * y < height c.
Proof.
  unfold frame_rows. intros H. apply in_map_iff in H as (n & <- & Hn). apply in_seq in Hn.
  pose proof (Z.div_mod (height c + 3) 4 ltac:(lia)). pose proof (Z.mod_pos_bound (height c + 3) 4 ltac:(lia)).
  destruct (Z.le_gt_cases 0 ((height c + 3) / 4)); [|rewrite Z2Nat.nonpos in Hn by lia; lia].
  assert (Z.of_nat n < (height c + 3) / 4) by lia. lia.
Qed.

Lemma in_cols (c : Canvas) (x : Z) :
  In x (frame_cols c) -> 0 <= x /\ 2 * x < width c.
Proof.
  unfold frame_cols. intros H. apply in_map_iff in H as (n & <- & Hn). apply in_seq in Hn.
  pose proof (Z.div_mod (width c + 1) 2 ltac:(lia)). pose proof (Z.mod_pos_bound (width c + 1) 2 ltac:(lia)).
  destruct (Z.le_gt_cases 0 ((width c + 1) / 2)); [|rewrite Z2Nat.nonpos in Hn by lia; lia].
  assert (Z.of_nat n < (width c + 1) / 2) by lia. lia.
Qed.

(** On a canvas whose width is even, the cell index is [y*(width/2) + x]. *)
Lemma frame_idx_even (c : Canvas) (y x : Z) :
  width c mod 2 = 0 -> frame_idx c y x = Some (y * (width c / 2) + x).
Proof.
  intros Hw. unfold frame_idx.
  pose proof (Z.div_mod (width c) 2 ltac:(lia)).
  replace (y * width c) with ((y * (width c / 2)) * 2) by lia.
  rewrite Z.mod_mul, Z.div_mul by lia. reflexivity.
Qed.

Lemma frame_idx_range (c : Canvas) (y x : Z) :
  width c mod 2 = 0 -> height c mod 4 = 0 ->
  0 <= y -> 4 * y < height c -> 0 <= x -> 2 * x < width c ->
  0 <= y * (width c / 2) + x < width c * height c / 8.
Proof.
  intros Hw Hh Hy Hy' Hx Hx'.
  pose proof (Z.div_mod (width c) 2 ltac:(lia)). pose proof (Z.div_mod (height c) 4 ltac:(lia)).
  set (a := width c / 2) in *. set (b := height c / 4) in *.
  assert (width c * height c / 8 = a * b) as ->.
  { replace (width c * height c) with ((a * b) * 8) by lia. apply Z.div_mul. lia. }
  assert (y <= b - 1) by lia. assert (x <= a - 1) by lia.
  assert (y * a <= (b - 1) * a) by (apply Z.mul_le_mono_nonneg_r; lia).
  split; nia.
Qed.

Lemma rd_some (b : list Z) (i : Z) :
  0 <= i < Z.of_nat (length b) -> exists v, rd b (Some i) = Some v.
Proof.
  intros H. unfold rd. replace (0 <=? i) with true by (symmetry; apply Z.leb_le; lia).
  apply lookup_lt_is_Some_2. lia.
Qed.

(** For a canvas of even width, a height that is a multiple of 4 and a
    full background buffer, [frame] does not depend on the global
    background: every background read is defined, so [??] never falls
    back. *)
Theorem frame_ignores_globalBackground (stringWidth : string -> Z) (useBraille : bool)
    (gb gb' : option Z) (c : Canvas) :
  width c mod 2 = 0 -> height c mod 4 = 0 -> 0 <= width c -> 0 <= height c ->
  length (backgroundBuffer c) = Z.to_nat (width c * height c / 8) ->
  frame stringWidth useBraille gb c = frame stringWidth useBraille gb' c.
Proof.
  intros Hw Hh Hw0 Hh0 Hl. unfold frame.
  rewrite (fold_left_ext_in (frame_row stringWidth useBraille gb c) (frame_row stringWidth useBraille gb' c));
    [reflexivity|].
  intros [[out cur] sk] y Hy. apply in_rows in Hy. unfold frame_row.
  apply fold_left_ext_in. intros [[out' cur'] sk'] x Hx. apply in_cols in Hx.
  unfold frame_cell. rewrite frame_idx_even by exact Hw.
  pose proof (frame_idx_range c y x Hw Hh ltac:(lia) ltac:(lia) ltac:(lia) ltac:(lia)).
  destruct (rd_some (backgroundBuffer c) (y * (width c / 2) + x)) as [v ->].
  { rewrite Hl. assert (0 <= width c * height c / 8) by (apply Z.div_pos; lia). lia. }
  reflexivity.
Qed.

Lemma pixel_not_color (ub : bool) (c : Canvas) (idx : option Z) :
  not_color (pixel_piece ub c idx) = true.
Proof. unfold pixel_piece. destruct ub; reflexivity. Qed.

Lemma cell_no_chars (sw : string -> Z) (ub : bool) (gb : option Z) (c : Canvas)
    (out : list Piece) (cur : option string) (y x : Z) :
  charBuffer c = ∅ -> width c mod 2 = 0 ->
  exists out' cur', frame_cell sw ub gb c (out, cur, 0) y x = (out', cur', 0) /\
    List.filter not_color (rev out') =
      List.filter not_color (rev out) ++ delim_if (y * (width c / 2) + x) x ++
      [pixel_piece ub c (Some (y * (width c / 2) + x))].
Proof.
  intros Hc Hw. unfold frame_cell. rewrite frame_idx_even by exact Hw.
  set (i := y * (width c / 2) + x).
  assert (Hch : char_at c (Some i) = None) by (simpl; rewrite Hc; apply lookup_empty).
  rewrite Hch. unfold delim_if. simpl idx_truthy.
  destruct (negb (i =? 0) && (x =? 0));
  (destruct (decide _); [eexists _, _; split; [reflexivity|]|eexists _, _; split; [reflexivity|]]);
  simpl; rewrite ?List.filter_app; simpl; rewrite ?pixel_not_color; rewrite <- ?app_assoc; reflexivity.
Qed.

Lemma row_no_chars (sw : string -> Z) (ub : bool) (gb : option Z) (c : Canvas) (y : Z)
    (xs : list Z) (out : list Piece) (cur : option string) :
  charBuffer c = ∅ -> width c mod 2 = 0 ->
  exists out' cur', fold_left (fun st x => frame_cell sw ub gb c st y x) xs (out, cur, 0) = (out', cur', 0) /\
    List.filter not_color (rev out') =
      List.filter not_color (rev out) ++
      concat (map (fun x => delim_if (y * (width c / 2) + x) x ++
                            [pixel_piece ub c (Some (y * (width c / 2) + x))]) xs).
Proof.
  intros Hc Hw. revert out cur. induction xs as [|x xs IH]; intros out cur; cbn [fold_left map concat].
  - exists out, cur. rewrite app_nil_r. auto.
  - destruct (cell_no_chars sw ub gb c out cur y x Hc Hw) as (o1 & c1 & -> & E1).
    destruct (IH o1 c1) as (o2 & c2 & -> & E2). exists o2, c2. split; [reflexivity|].
    rewrite E2, E1. rewrite <- !app_assoc. reflexivity.
Qed.

Lemma frame_cols_shape (c : Canvas) :
  0 < width c -> exists n, frame_cols c = 0 :: map Z.of_nat (seq 1 n).
Proof.
  intros Hw. unfold frame_cols.
  destruct (Z.to_nat ((width c + 1) / 2)) as [|n] eqn:E.
  - exfalso. assert (1 <= (width c + 1) / 2) by (apply Z.div_le_lower_bound; lia). lia.
  - exists n. reflexivity.
Qed.

Lemma row_concat (ub : bool) (c : Canvas) (y : Z) :
  0 < width c -> width c mod 2 = 0 -> 0 <= y ->
  concat (map (fun x => delim_if (y * (width c / 2) + x) x ++
                        [pixel_piece ub c (Some (y * (width c / 2) + x))]) (frame_cols c)) =
  (if y =? 0 then [] else [PDelim]) ++ row_pieces ub c y.
Proof.
  intros Hw Hw2 Hy. unfold row_pieces. destruct (frame_cols_shape c Hw) as [n ->].
  assert (Ha : 1 <= width c / 2).
  { pose proof (Z.div_mod (width c) 2 ltac:(lia)). lia. }
  cbn [map concat]. unfold delim_if at 1. rewrite Z.add_0_r. cbn [Z.eqb].
  rewrite andb_true_r.
  assert (Hrest : forall k n, (1 <= k)%nat ->
    concat (map (fun x => delim_if (y * (width c / 2) + x) x ++
                          [pixel_piece ub c (Some (y * (width c / 2) + x))]) (map Z.of_nat (seq k n))) =
    map (fun x => pixel_piece ub c (Some (y * (width c / 2) + x))) (map Z.of_nat (seq k n))).
  { intros k m. revert k. induction m as [|m IH]; intros k Hk; [reflexivity|].
    cbn [seq map concat]. rewrite IH by lia. unfold delim_if at 1.
    replace (Z.of_nat k =? 0) with false by (symmetry; apply Z.eqb_neq; lia).
    rewrite andb_false_r. reflexivity. }
  rewrite Hrest by lia.
  destruct (Z.eqb_spec y 0) as [->|Ny].
  - reflexivity.
  - replace (y * (width c / 2) =? 0) with false by (symmetry; apply Z.eqb_neq; nia).
    reflexivity.
Qed.

Lemma rows_no_chars (sw : string -> Z) (ub : bool) (gb : option Z) (c : Canvas)
    (ys : list Z) (out : list Piece) (cur : option string) (sk : Z) :
  charBuffer c = ∅ -> width c mod 2 = 0 -> 0 < width c -> Forall (fun y => 0 <= y) ys ->
  exists out' cur' sk', fold_left (frame_row sw ub gb c) ys (out, cur, sk) = (out', cur', sk') /\
    List.filter not_color (rev out') =
      List.filter not_color (rev out) ++
      concat (map (fun y => (if y =? 0 then [] else [PDelim]) ++ row_pieces ub c y) ys).
Proof.
  intros Hc Hw Hw0 Hys. revert out cur sk. induction Hys as [|y ys Hy Hys IH]; intros out cur sk;
    cbn [fold_left map concat].
  - exists out, cur, sk. rewrite app_nil_r. auto.
  - unfold frame_row at 2.
    destruct (row_no_chars sw ub gb c y (frame_cols c) out cur Hc Hw) as (o1 & c1 & E & E1).
    fold (frame_row sw ub gb c). rewrite E.
    destruct (IH o1 c1 0) as (o2 & c2 & s2 & -> & E2). exists o2, c2, s2. split; [reflexivity|].
    rewrite E2, E1, row_concat by assumption. rewrite <- !app_assoc. reflexivity.
Qed.

Lemma frame_rows_nonneg (c : Canvas) : Forall (fun y => 0 <= y) (frame_rows c).
Proof. apply Forall_forall. intros y Hy. apply list_elem_of_In, in_rows in Hy. lia. Qed.

Lemma cells_after_filter (l : list Piece) :
  List.filter is_cell (List.filter not_color l) = List.filter is_cell l.
Proof. induction l as [|[] l IH]; simpl; rewrite ?IH; reflexivity. Qed.

Lemma seq_cells (f : Z -> Piece) (k a s : nat) :
  map (fun x => f (Z.of_nat k + x)) (map Z.of_nat (seq s a)) = map (fun i => f (Z.of_nat i)) (seq (k + s) a).
Proof.
  revert s. induction a as [|a IH]; intros s; [reflexivity|].
  cbn [seq map]. rewrite IH. replace (k + S s)%nat with (S (k + s)) by lia.
  rewrite Nat2Z.inj_add. reflexivity.
Qed.

Lemma concat_rows (f : Z -> Piece) (a b : nat) :
  concat (map (fun y => map (fun x => f (y * Z.of_nat a + x)) (map Z.of_nat (seq 0 a)))
              (map Z.of_nat (seq 0 b))) =
  map (fun i => f (Z.of_nat i)) (seq 0 (a * b)).
Proof.
  induction b as [|b IH]; [rewrite Nat.mul_0_r; reflexivity|].
  rewrite seq_S, !map_app, concat_app, IH. cbn [map concat]. rewrite app_nil_r.
  replace (a * S b)%nat with (a * b + a)%nat by lia. rewrite seq_app, map_app. f_equal.
  rewrite !Nat.add_0_l.
  replace (Z.of_nat b * Z.of_nat a) with (Z.of_nat (a * b)) by lia.
  rewrite seq_cells, Nat.add_0_r. reflexivity.
Qed.

(** With no labels written, [frame] outputs, apart from colour codes,
    one row of cells per 4 pixel rows, each row after the first
    preceded by the delimiter, then the end marker; and its cells are
    the canvas bytes in index order, each once. *)
Theorem frame_layout_without_labels (sw : string -> Z) (ub : bool) (gb : option Z) (c : Canvas) :
  charBuffer c = ∅ -> width c mod 2 = 0 -> 0 < width c ->
  List.filter not_color (frame sw ub gb c) =
    concat (map (fun y => (if y =? 0 then [] else [PDelim]) ++ row_pieces ub c y) (frame_rows c))
    ++ [PEnd] /\
  (height c mod 4 = 0 -> 0 <= height c ->
   List.filter is_cell (frame sw ub gb c) =
     map (fun i => pixel_piece ub c (Some (Z.of_nat i))) (seq 0 (Z.to_nat (width c * height c / 8)))).
Proof.
  intros Hc Hw Hw0.
  assert (Hl : List.filter not_color (frame sw ub gb c) =
    concat (map (fun y => (if y =? 0 then [] else [PDelim]) ++ row_pieces ub c y) (frame_rows c))
    ++ [PEnd]).
  { unfold frame.
    destruct (rows_no_chars sw ub gb c (frame_rows c) [] None 0 Hc Hw Hw0 (frame_rows_nonneg c))
      as (o & cu & sk & -> & E).
    cbn [rev]. rewrite List.filter_app, E. reflexivity. }
  split; [exact Hl|]. intros Hh Hh0.
  rewrite <- cells_after_filter, Hl, List.filter_app. cbn [List.filter is_cell]. rewrite app_nil_r.
  assert (Hrow : forall y, List.filter is_cell ((if y =? 0 then [] else [PDelim]) ++ row_pieces ub c y)
                          = row_pieces ub c y).
  { intros y. rewrite List.filter_app.
    replace (List.filter is_cell (if y =? 0 then [] else [PDelim])) with (@nil Piece)
      by (destruct (y =? 0); reflexivity).
    simpl. unfold row_pieces. induction (frame_cols c) as [|x xs IH]; [reflexivity|].
    cbn [map List.filter]. unfold pixel_piece at 1. destruct ub; simpl; f_equal; exact IH. }
  assert (Hcat : forall ys, List.filter is_cell
      (concat (map (fun y => (if y =? 0 then [] else [PDelim]) ++ row_pieces ub c y) ys)) =
      concat (map (row_pieces ub c) ys)).
  { induction ys as [|y ys IH]; [reflexivity|]. cbn [map concat].
    rewrite List.filter_app, Hrow, IH. reflexivity. }
  rewrite Hcat.
  pose proof (Z.div_mod (width c) 2 ltac:(lia)). pose proof (Z.div_mod (height c) 4 ltac:(lia)).
  assert (Ea : Z.to_nat ((width c + 1) / 2) = Z.to_nat (width c / 2)).
  { f_equal. replace (width c + 1) with (1 + (width c / 2) * 2) by lia.
    rewrite Z.div_add by lia. reflexivity. }
  assert (Eb : Z.to_nat ((height c + 3) / 4) = Z.to_nat (height c / 4)).
  { f_equal. replace (height c + 3) with (3 + (height c / 4) * 4) by lia.
    rewrite Z.div_add by lia. reflexivity. }
  assert (En : Z.to_nat (width c * height c / 8) = (Z.to_nat (width c / 2) * Z.to_nat (height c / 4))%nat).
  { rewrite <- Z2Nat.inj_mul by (apply Z.div_pos; lia). f_equal.
    replace (width c * height c) with ((width c / 2 * (height c / 4)) * 8) by lia.
    apply Z.div_mul. lia. }
  unfold row_pieces, frame_rows, frame_cols. rewrite Ea, Eb, En.
  rewrite <- (concat_rows (fun i => pixel_piece ub c (Some i))).
  rewrite Z2Nat.id by (apply Z.div_pos; lia). reflexivity.
Qed.

Lemma colors_app (l l' : list Piece) : colors (l ++ l') = colors l ++ colors l'.
Proof. induction l as [|[] l IH]; simpl; rewrite ?IH; reflexivity. Qed.

Lemma colors_rev (l : list Piece) : colors (rev l) = rev (colors l).
Proof.
  induction l as [|p l IH]; [reflexivity|]. cbn [rev]. rewrite colors_app, IH.
  destruct p; simpl; rewrite ?app_nil_r; reflexivity.
Qed.

Lemma no_repeat_rev (l : list string) : no_repeat l -> no_repeat (rev l).
Proof.
  intros H l1 l2 a b E. apply (f_equal (@rev string)) in E. rewrite rev_involutive in E.
  rewrite rev_app_distr in E. cbn [rev] in E. rewrite <- !app_assoc in E. cbn [app] in E.
  intros ->. exact (H _ _ _ _ E eq_refl).
Qed.

Lemma no_repeat_cons (a : string) (l : list string) :
  no_repeat l -> hd_error l <> Some a -> no_repeat (a :: l).
Proof.
  intros H Hd [|x l1] l2 a' b E.
  - injection E as -> ->. intros ->. apply Hd. reflexivity.
  - injection E as _ E. exact (H _ _ _ _ E).
Qed.

Lemma cell_colors (sw : string -> Z) (ub : bool) (gb : option Z) (c : Canvas)
    (out : list Piece) (cur : option string) (sk y x : Z) :
  let '(out', cur', _) := frame_cell sw ub gb c (out, cur, sk) y x in
  (colors out' = colors out /\ cur' = cur) \/
  (exists code, cur <> Some code /\ colors out' = code :: colors out /\ cur' = Some code).
Proof.
  unfold frame_cell.
  set (idx := frame_idx c y x).
  set (code := termColor gb (rd (foregroundBuffer c) idx) (rd (backgroundBuffer c) idx)).
  assert (Hd : colors (if idx_truthy idx && (x =? 0) then PDelim :: out else out) = colors out)
    by (destruct (_ && _); reflexivity).
  destruct (decide (cur = Some code)) as [Ec|Nc];
  destruct (char_at c idx) as [ch|];
  try destruct (String.eqb ch ""); try destruct (sk =? 0); try destruct (_ <? width c);
  unfold pixel_piece; try destruct ub; cbn [colors];
  first [left; split; [exact Hd|reflexivity] | right; exists code; rewrite Hd; auto].
Qed.

Lemma row_colors (sw : string -> Z) (ub : bool) (gb : option Z) (c : Canvas) (y : Z)
    (xs : list Z) (st : FState) :
  no_repeat (colors st.1.1) -> hd_error (colors st.1.1) = st.1.2 ->
  let st' := fold_left (fun st x => frame_cell sw ub gb c st y x) xs st in
  no_repeat (colors st'.1.1) /\ hd_error (colors st'.1.1) = st'.1.2.
Proof.
  revert st. induction xs as [|x xs IH]; intros [[out cur] sk] H1 H2; [split; assumption|].
  cbn [fold_left].
  pose proof (cell_colors sw ub gb c out cur sk y x) as Hc.
  destruct (frame_cell sw ub gb c (out, cur, sk) y x) as [[out' cur'] sk'] eqn:E.
  simpl in H1, H2.
  destruct Hc as [[E1 E2]|(code & Nc & E1 & E2)]; apply IH; simpl; rewrite E1, ?E2.
  - exact H1.
  - exact H2.
  - apply no_repeat_cons; [exact H1|]. rewrite H2. exact Nc.
  - reflexivity.
Qed.

(** [frame] never outputs the same colour code twice in a row. *)
Theorem frame_color_codes_change (sw : string -> Z) (ub : bool) (gb : option Z) (c : Canvas) :
  no_repeat (colors (frame sw ub gb c)).
Proof.
  unfold frame.
  assert (H : forall ys (st : FState), no_repeat (colors st.1.1) -> hd_error (colors st.1.1) = st.1.2 ->
    let st' := fold_left (frame_row sw ub gb c) ys st in
    no_repeat (colors st'.1.1) /\ hd_error (colors st'.1.1) = st'.1.2).
  { induction ys as [|y ys IH]; intros [[out cur] sk] H1 H2; [split; assumption|].
    cbn [fold_left]. apply IH; unfold frame_row;
      apply (row_colors sw ub gb c y (frame_cols c) (out, cur, 0)); assumption. }
  destruct (H (frame_rows c) ([], None, 0)) as [H1 _].
  - intros l1 l2 a b E. destruct l1; discriminate.
  - reflexivity.
  - destruct (fold_left _ _ _) as [[out cur] sk]. simpl in H1.
    cbn [rev]. rewrite colors_app. cbn [colors]. rewrite app_nil_r, colors_rev. apply no_repeat_rev, H1.
Qed.

Lemma frame_ignores_globalBackground_witness :
  (width (create 4 8) mod 2 = 0 /\ height (create 4 8) mod 4 = 0 /\ 0 <= width (create 4 8) /\
   0 <= height (create 4 8) /\
   length (backgroundBuffer (create 4 8)) = Z.to_nat (width (create 4 8) * height (create 4 8) / 8)) /\
  frame label_width true None (create 4 8) = frame label_width true (Some 7) (create 4 8).
Proof.
  split; [repeat split; first [reflexivity | simpl; lia]|].
  exact (frame_ignores_globalBackground label_width true None (Some 7) (create 4 8)
           eq_refl eq_refl ltac:(simpl; lia) ltac:(simpl; lia) eq_refl).
Defined.

Lemma frame_layout_without_labels_witness :
  (charBuffer (setPixel (create 4 8) 1 1 3) = ∅ /\ width (setPixel (create 4 8) 1 1 3) mod 2 = 0 /\
   0 < width (setPixel (create 4 8) 1 1 3)) /\
  (List.filter not_color (frame label_width true None (setPixel (create 4 8) 1 1 3)) =
    concat (map (fun y => (if y =? 0 then [] else [PDelim]) ++ row_pieces true (setPixel (create 4 8) 1 1 3) y)
                (frame_rows (setPixel (create 4 8) 1 1 3))) ++ [PEnd] /\
  (height (setPixel (create 4 8) 1 1 3) mod 4 = 0 -> 0 <= height (setPixel (create 4 8) 1 1 3) ->
   List.filter is_cell (frame label_width true None (setPixel (create 4 8) 1 1 3)) =
     map (fun i => pixel_piece true (setPixel (create 4 8) 1 1 3) (Some (Z.of_nat i)))
         (seq 0 (Z.to_nat (width (setPixel (create 4 8) 1 1 3) * height (setPixel (create 4 8) 1 1 3) / 8))))).
Proof.
  split; [repeat split; first [reflexivity | simpl; lia]|].
  exact (frame_layout_without_labels label_width true None (setPixel (create 4 8) 1 1 3)
           eq_refl eq_refl eq_refl).
Defined.

End BrailleFrameProofs.

Module MapsciiProofs.
Import BrailleBuffer Mapscii.

Lemma toInt32_mod4 (v : Z) : v mod 4 = 0 -> toInt32 v mod 4 = 0.
Proof.
  intros H. unfold toInt32. pose proof (Z.mod_pos_bound v (2 ^ 32) ltac:(lia)).
  assert (E : v mod 2 ^ 32 mod 4 = 0).
  { change (2 ^ 32) with (4 * 2 ^ 30). rewrite Z.rem_mul_r by lia.
    rewrite Z.mul_comm, Z.mod_add, Z.mod_mod by lia. exact H. }
  destruct (_ <? _); [exact E|].
  replace (v mod 2 ^ 32 - 2 ^ 32) with (v mod 2 ^ 32 + (- 2 ^ 30) * 4) by lia.
  rewrite Z.mod_add by lia. exact E.
Qed.

Lemma mod4_mod2 (v : Z) : v mod 4 = 0 -> v mod 2 = 0.
Proof.
  intros H. pose proof (Z.div_mod v 4 ltac:(lia)). rewrite H, Z.add_0_r in H0.
  rewrite H0. replace (4 * (v / 4)) with ((2 * (v / 4)) * 2) by lia. apply Z.mod_mul. lia.
Qed.

(** [_resizeRenderer] always gives an even width and a height that is a
    multiple of 4; from a terminal of fewer than 2^30 columns the width
    is the largest multiple of 4 not above 2*columns. *)
Theorem resize_canvas_aligned (size : option SizeConfig) (columns rows : Z) :
  resize_width size columns mod 2 = 0 /\ resize_height size rows mod 4 = 0 /\
  (size = None -> 0 <= columns < 2 ^ 30 ->
   2 * columns - 4 < resize_width size columns <= 2 * columns /\
   resize_width size columns mod 4 = 0).
Proof.
  unfold resize_width, resize_height.
  assert (Hdef : forall c, toInt32 (Z.shiftl (shr c 1) 2) mod 4 = 0).
  { intros c. apply toInt32_mod4. rewrite Z.shiftl_mul_pow2 by lia.
    change (2 ^ 2) with 4. apply Z.mod_mul. lia. }
  split; [|split].
  - destruct (truthy_dim size size_width).
    + rewrite Z.mod_mul; lia.
    + apply mod4_mod2, Hdef.
  - destruct (truthy_dim size size_height).
    + apply Z.mod_mul; lia.
    + replace (rows * 4 - 4) with ((rows - 1) * 4) by lia. apply Z.mod_mul; lia.
  - intros -> Hc. simpl. split; [|apply Hdef].
    unfold shr. rewrite (BrailleBufferProofs.toInt32_small columns) by lia.
    rewrite Z.shiftr_div_pow2, Z.shiftl_mul_pow2 by lia.
    change (2 ^ 1) with 2. change (2 ^ 2) with 4.
    pose proof (Z.div_mod columns 2 ltac:(lia)). pose proof (Z.mod_pos_bound columns 2 ltac:(lia)).
    assert (0 <= columns / 2) by (apply Z.div_pos; lia).
    rewrite BrailleBufferProofs.toInt32_small by lia. lia.
Qed.

(** When minZoom <= maxZoom, [zoomBy] gives a zoom within
    [minZoom, maxZoom], exactly zoom+step when that is in range, and is
    monotone in the step. *)
Theorem zoomBy_clamped_monotone (zoom minZoom maxZoom step step' : Q) :
  (minZoom <= maxZoom)%Q ->
  (minZoom <= zoomBy zoom minZoom maxZoom step <= maxZoom)%Q /\
  ((minZoom <= zoom + step <= maxZoom)%Q -> zoomBy zoom minZoom maxZoom step = (zoom + step)%Q) /\
  ((step <= step')%Q -> (zoomBy zoom minZoom maxZoom step <= zoomBy zoom minZoom maxZoom step')%Q).
Proof.
  intros Hmm. unfold zoomBy.
  split; [|split].
  - destruct (Qlt_le_dec (zoom + step) minZoom); [lra|].
    destruct (Qlt_le_dec maxZoom (zoom + step)); lra.
  - intros [H1 H2].
    destruct (Qlt_le_dec (zoom + step) minZoom); [lra|].
    destruct (Qlt_le_dec maxZoom (zoom + step)); [lra|reflexivity].
  - intros Hs.
    destruct (Qlt_le_dec (zoom + step) minZoom);
    destruct (Qlt_le_dec maxZoom (zoom + step));
    destruct (Qlt_le_dec (zoom + step') minZoom);
    destruct (Qlt_le_dec maxZoom (zoom + step')); lra.
Qed.

Lemma resize_canvas_aligned_witness :
  ((None : option SizeConfig) = None /\ 0 <= 81 < 2 ^ 30) /\
  (2 * 81 - 4 < resize_width None 81 <= 2 * 81 /\ resize_width None 81 mod 4 = 0).
Proof.
  split; [split; [reflexivity|lia]|].
  exact (proj2 (proj2 (resize_canvas_aligned None 81 25)) eq_refl ltac:(lia)).
Defined.

Lemma zoomBy_clamped_monotone_witness :
  (0 <= 18)%Q /\
  ((0 <= zoomBy 17 0 18 1 <= 18)%Q /\
   ((0 <= 17 + 1 <= 18)%Q -> zoomBy 17 0 18 1 = (17 + 1)%Q) /\
   ((1 <= 2)%Q -> (zoomBy 17 0 18 1 <= zoomBy 17 0 18 2)%Q)).
Proof.
  split; [unfold Qle; simpl; lia|].
  exact (zoomBy_clamped_monotone 17 0 18 1 2 ltac:(unfold Qle; simpl; lia)).
Defined.

End MapsciiProofs.
